(** * Widget syntax of the editor: delimiter codec, rule registry,
      segmentation into nodes and widget content extraction.

    A shallow embedding of [unwrapWidgetSyntax], [createWidgetContent],
    [widgetToDOM], [setWidgetRules], [createNodesWithWidget] and
    [getWidgetContent], together with the part of the JavaScript string and
    regular expression semantics these functions rely on. *)

From Stdlib Require Import NArith Ascii String DecimalNat DecimalString Lia.
From stdpp Require Import base option list gmap.
From Equations Require Import Equations.

Local Open Scope nat_scope.

(** ** JavaScript strings and regular expressions *)

Module JS.

(** A JavaScript string is a finite sequence of UTF-16 code units. *)
Definition jstring : Type := list N.

(** ASCII literals of the source, as code units. *)
Definition str (s : String.string) : jstring :=
  map N_of_ascii (list_ascii_of_string s).

(** U+200B, the zero-width space. *)
Definition ZWSP : N := 8203%N.

(** *** Character classes *)

Definition lit (c : N) : N -> bool := N.eqb c.

(** [\d] *)
Definition isDigit (c : N) : bool := (48 <=? c)%N && (c <=? 57)%N.

(** [\s]: WhiteSpace and LineTerminator code points of ECMAScript. *)
Definition isSpace (c : N) : bool :=
  ((9 <=? c)%N && (c <=? 13)%N)
  || (c =? 32)%N || (c =? 160)%N || (c =? 5760)%N
  || ((8192 <=? c)%N && (c <=? 8202)%N)
  || (c =? 8232)%N || (c =? 8233)%N || (c =? 8239)%N
  || (c =? 8287)%N || (c =? 12288)%N || (c =? 65279)%N.

(** [\S] *)
Definition notSpace (c : N) : bool := negb (isSpace c).

(** *** Patterns

    A regular expression is its matcher: given the whole input and a start
    index it fails or yields the end index of the match (the matcher of
    RegExpBuiltinExec).  Rules are regular expressions without the [g] and
    [y] flags, so [lastIndex] plays no role. *)
Record RegExp : Type := mkRegExp { matcher : jstring -> nat -> option nat }.

(** The regular expression literals of the source are sequences of
    single-character atoms, possibly under a greedy quantifier. *)
Inductive item : Type :=
| One (a : N -> bool)
| Star (a : N -> bool)
| Plus (a : N -> bool).

(** Greedy [a*] followed by the continuation [k], with backtracking; the
    result is the number of code units consumed. *)
Fixpoint star (a : N -> bool) (k : jstring -> option nat) (s : jstring)
  : option nat :=
  match s with
  | c :: s' =>
      if a c then
        match star a k s' with
        | Some n => Some (S n)
        | None => k s
        end
      else k s
  | [] => k s
  end.

Fixpoint matchSeq (p : list item) (s : jstring) : option nat :=
  match p with
  | [] => Some 0
  | One a :: p' =>
      match s with
      | c :: s' => if a c then S <$> matchSeq p' s' else None
      | [] => None
      end
  | Star a :: p' => star a (matchSeq p') s
  | Plus a :: p' =>
      match s with
      | c :: s' => if a c then S <$> star a (matchSeq p') s' else None
      | [] => None
      end
  end.

Definition compile (p : list item) : RegExp :=
  mkRegExp (fun s i =>
    if decide (i <= length s)
    then (fun n => i + n) <$> matchSeq p (drop i s)
    else None).

(** RegExpBuiltinExec for a pattern without flags: try the matcher at
    [lastIndex = 0, 1, ...] up to the length of the input.  [n] counts the
    advances that remain. *)
Fixpoint execFrom (re : RegExp) (s : jstring) (n lastIndex : nat)
  : option (nat * jstring) :=
  match matcher re s lastIndex with
  | Some e => Some (lastIndex, take (e - lastIndex) (drop lastIndex s))
  | None =>
      match n with
      | 0 => None
      | S n' => execFrom re s n' (S lastIndex)
      end
  end.

(** The result of [exec]: the index of the first match and the matched
    substring ([result.index] and [result[0]]). *)
Definition RegExpBuiltinExec (re : RegExp) (s : jstring)
  : option (nat * jstring) :=
  execFrom re s (length s) 0.

(** [s.search(re)]; [None] stands for [-1]. *)
Definition String_search (s : jstring) (re : RegExp) : option nat :=
  fst <$> RegExpBuiltinExec re s.

(** [s.match(re)]: [None] is [null], [Some m] an array with [m] at [0]. *)
Definition String_match (s : jstring) (re : RegExp) : option jstring :=
  snd <$> RegExpBuiltinExec re s.

(** [re.test(s)] *)
Definition RegExp_test (re : RegExp) (s : jstring) : bool :=
  bool_decide (is_Some (RegExpBuiltinExec re s)).

(** [s.substring(start, end)] and [s.substring(start)] *)
Definition substring (s : jstring) (start finish : nat) : jstring :=
  let a := start `min` length s in
  let b := finish `min` length s in
  take (a `max` b - a `min` b) (drop (a `min` b) s).

Definition substring_from (s : jstring) (start : nat) : jstring :=
  substring s start (length s).

(** [s.startsWith(p)] and [s.indexOf(p)] *)
Fixpoint startsWith (s p : jstring) {struct p} : bool :=
  match p, s with
  | [], _ => true
  | c :: p', d :: s' => (c =? d)%N && startsWith s' p'
  | _ :: _, [] => false
  end.

Fixpoint indexOf (s p : jstring) : option nat :=
  if startsWith s p then Some 0
  else match s with
       | [] => None
       | _ :: s' => S <$> indexOf s' p
       end.

(** [s.includes(p)] *)
Definition includes (s p : jstring) : bool :=
  bool_decide (is_Some (indexOf s p)).

(** GetSubstitution for a match without capture groups: in the replacement
    text [$$] stands for a dollar sign, [$&] for the match, [$`] and [$']
    for the text before and after it; every other dollar sign is literal. *)
Fixpoint GetSubstitution (matched before after templ : jstring) : jstring :=
  match templ with
  | [] => []
  | c :: t =>
      if (c =? 36)%N then
        match t with
        | d :: t' =>
            if (d =? 36)%N then
              36%N :: GetSubstitution matched before after t'
            else if (d =? 38)%N then
              matched ++ GetSubstitution matched before after t'
            else if (d =? 96)%N then
              before ++ GetSubstitution matched before after t'
            else if (d =? 39)%N then
              after ++ GetSubstitution matched before after t'
            else c :: GetSubstitution matched before after t
        | [] => [c]
        end
      else c :: GetSubstitution matched before after t
  end.

(** [s.replace(re, repl)] for a pattern without the [g] flag. *)
Definition String_replace_re (s : jstring) (re : RegExp) (repl : jstring)
  : jstring :=
  match RegExpBuiltinExec re s with
  | None => s
  | Some (position, matched) =>
      let after := drop (position + length matched) s in
      take position s
        ++ GetSubstitution matched (take position s) after repl
        ++ after
  end.

(** [s.replace(p, repl)] for a string pattern: only the first occurrence. *)
Definition String_replace (s p repl : jstring) : jstring :=
  match indexOf s p with
  | None => s
  | Some position =>
      let after := drop (position + length p) s in
      take position s
        ++ GetSubstitution p (take position s) after repl
        ++ after
  end.

(** [s.replaceAll(p, repl)] for a non-empty string pattern: the occurrences
    found from left to right without overlap.  [before] is the text already
    scanned, [skip] the code units of the current occurrence still to pass. *)
Fixpoint replaceAllFrom (p repl before : jstring) (skip : nat) (s : jstring)
  : jstring :=
  match s with
  | [] => []
  | c :: s' =>
      match skip with
      | S k => replaceAllFrom p repl (before ++ [c]) k s'
      | 0 =>
          if startsWith s p then
            GetSubstitution p before (drop (length p) s) repl
              ++ replaceAllFrom p repl (before ++ [c]) (length p - 1) s'
          else c :: replaceAllFrom p repl (before ++ [c]) 0 s'
      end
  end.

Definition String_replaceAll (s p repl : jstring) : jstring :=
  replaceAllFrom p repl [] 0 s.

(** Number::toString for an array index: decimal digits. *)
Definition Number_toString (n : nat) : jstring :=
  str (NilZero.string_of_uint (Nat.to_uint n)).

End JS.

(** ** Facts about the string primitives *)

Module JSFacts.
Import JS.

Lemma substring_0 (s : jstring) (i : nat) : substring s 0 i = take i s.
Proof.
  unfold substring. rewrite Nat.min_0_l, Nat.max_0_l, Nat.sub_0_r, drop_0.
  destruct (decide (i <= length s)).
  - now rewrite Nat.min_l by lia.
  - rewrite Nat.min_r by lia. now rewrite !take_ge by lia.
Qed.

Lemma substring_from_drop (s : jstring) (i : nat) :
  substring_from s i = drop i s.
Proof.
  unfold substring_from, substring. rewrite Nat.min_id.
  destruct (decide (i <= length s)).
  - rewrite (Nat.min_l i) by lia. rewrite Nat.max_r, Nat.min_l by lia.
    apply take_ge. rewrite length_drop. lia.
  - rewrite (Nat.min_r i) by lia. rewrite Nat.max_id, Nat.min_id, Nat.sub_diag.
    rewrite (drop_ge s i) by lia. now rewrite take_0.
Qed.

(** *** The sequence matcher *)

Lemma star_le a (k : jstring -> option nat) :
  (forall s n, k s = Some n -> n <= length s) ->
  forall s n, star a k s = Some n -> n <= length s.
Proof.
  intros Hk s. induction s as [|c s IH]; intros n H; simpl in H.
  - now apply Hk in H.
  - destruct (a c).
    + destruct (star a k s) as [m|].
      * injection H as <-. specialize (IH m eq_refl). simpl. lia.
      * now apply Hk in H.
    + now apply Hk in H.
Qed.

Lemma matchSeq_le p : forall s n, matchSeq p s = Some n -> n <= length s.
Proof.
  induction p as [|[a|a|a] p IH]; intros s n H; simpl in H.
  - injection H as <-. lia.
  - destruct s as [|c s]; [done|]. destruct (a c); [|done].
    destruct (matchSeq p s) as [m|] eqn:E; [|done].
    injection H as <-. apply IH in E. simpl. lia.
  - eapply star_le; eauto.
  - destruct s as [|c s]; [done|]. destruct (a c); [|done].
    destruct (star a (matchSeq p) s) as [m|] eqn:E; [|done].
    injection H as <-. apply (star_le a _ IH) in E. simpl. lia.
Qed.

Lemma matchSeq_One_pos a p s n : matchSeq (One a :: p) s = Some n -> 0 < n.
Proof.
  simpl. destruct s as [|c s]; [done|]. destruct (a c); [|done].
  destruct (matchSeq p s); [|done]. intros [= <-]. lia.
Qed.

(** A compiled pattern looks at the input from the start index on only. *)
Lemma matcher_compile p s i e :
  matcher (compile p) s i = Some e <->
  i <= length s /\ exists n, matchSeq p (drop i s) = Some n /\ e = i + n.
Proof.
  simpl. destruct (decide (i <= length s)) as [Hi|Hi].
  - destruct (matchSeq p (drop i s)) as [n|]; simpl.
    + split.
      * intros [= <-]. eauto.
      * intros (_ & m & [= <-] & ->). done.
    + split; [done|]. now intros (_ & m & ? & _).
  - split; [done|]. intros [? _]. lia.
Qed.

Lemma matcher_compile_None p s i :
  matcher (compile p) s i = None <->
  length s < i \/ matchSeq p (drop i s) = None.
Proof.
  simpl. destruct (decide (i <= length s)) as [Hi|Hi].
  - destruct (matchSeq p (drop i s)) as [n|]; simpl.
    + split; [done|]. intros [?|?]; [lia|done].
    + split; auto.
  - split; [|done]. intros _. left. lia.
Qed.

(** *** The search loop of exec *)

Lemma execFrom_Some re s n i j m :
  execFrom re s n i = Some (j, m) ->
  i <= j <= i + n
  /\ (exists e, matcher re s j = Some e /\ m = take (e - j) (drop j s))
  /\ forall k, i <= k < j -> matcher re s k = None.
Proof.
  revert i. induction n as [|n IH]; intros i H; simpl in H.
  - destruct (matcher re s i) as [e|] eqn:E; [|done].
    injection H as <- <-. repeat split; try lia; eauto.
  - destruct (matcher re s i) as [e|] eqn:E.
    + injection H as <- <-. repeat split; try lia; eauto.
    + apply IH in H as (Hj & He & Hk). repeat split; try lia; auto.
      intros k Hik. destruct (decide (k = i)) as [->|]; [done|].
      apply Hk. lia.
Qed.

Lemma execFrom_None re s n i :
  execFrom re s n i = None ->
  forall k, i <= k <= i + n -> matcher re s k = None.
Proof.
  revert i. induction n as [|n IH]; intros i H k Hk; simpl in H.
  - destruct (matcher re s i) eqn:E; [done|].
    now replace k with i by lia.
  - destruct (matcher re s i) eqn:E; [done|].
    destruct (decide (k = i)) as [->|]; [done|]. apply (IH _ H). lia.
Qed.

Lemma execFrom_first re s n i e :
  matcher re s i = Some e ->
  execFrom re s n i = Some (i, take (e - i) (drop i s)).
Proof. intros H. destruct n; simpl; now rewrite H. Qed.

Lemma execFrom_skip re s n i :
  matcher re s i = None ->
  execFrom re s (S n) i = execFrom re s n (S i).
Proof. intros H. simpl. now rewrite H. Qed.

(** The first match lies at [i] when the matcher fails before [i] and
    succeeds at [i]. *)
Lemma execFrom_found re s n i j e :
  (forall k, i <= k < j -> matcher re s k = None) ->
  matcher re s j = Some e ->
  i <= j <= i + n ->
  execFrom re s n i = Some (j, take (e - j) (drop j s)).
Proof.
  revert i. induction n as [|n IH]; intros i Hk He Hj.
  - replace i with j by lia. now apply execFrom_first.
  - destruct (decide (i = j)) as [->|Hne].
    + now apply execFrom_first.
    + rewrite execFrom_skip by (apply Hk; lia).
      apply IH; auto; [|lia]. intros k ?. apply Hk. lia.
Qed.

Lemma exec_compile_Some p s j m :
  RegExpBuiltinExec (compile p) s = Some (j, m) <->
  j <= length s
  /\ (exists n, matchSeq p (drop j s) = Some n /\ m = take n (drop j s))
  /\ forall k, k < j -> matchSeq p (drop k s) = None.
Proof.
  unfold RegExpBuiltinExec. split.
  - intros H. apply execFrom_Some in H as (Hj & (e & He & ->) & Hk).
    apply matcher_compile in He as (Hle & n & Hn & ->).
    repeat split; [done| |].
    + exists n. split; [done|]. f_equal. lia.
    + intros k Hkj. specialize (Hk k ltac:(lia)).
      apply matcher_compile_None in Hk as [?|?]; [lia|done].
  - intros (Hj & (n & Hn & ->) & Hk).
    replace (take n (drop j s)) with (take (j + n - j) (drop j s))
      by (f_equal; lia).
    apply execFrom_found; [| |lia].
    + intros k ?. apply matcher_compile_None. right. apply Hk. lia.
    + apply matcher_compile. eauto.
Qed.

Lemma exec_compile_None p s :
  RegExpBuiltinExec (compile p) s = None <->
  forall k, k <= length s -> matchSeq p (drop k s) = None.
Proof.
  unfold RegExpBuiltinExec. split.
  - intros H k Hk. pose proof (execFrom_None _ _ _ _ H k ltac:(lia)) as Hm.
    apply matcher_compile_None in Hm as [?|?]; [lia|done].
  - intros H. destruct (execFrom _ _ _ _) as [[j m]|] eqn:E; [|done].
    apply execFrom_Some in E as (Hj & (e & He & _) & _).
    apply matcher_compile in He as (Hle & n & Hn & _).
    rewrite H in Hn by lia. done.
Qed.

(** After [search] found the first match at [index], the pattern matches
    the rest of the text at its very start. *)
Lemma search_compile_rest p text index :
  String_search text (compile p) = Some index ->
  index <= length text /\
  exists n, matchSeq p (drop index text) = Some n /\
    RegExpBuiltinExec (compile p) (drop index text)
      = Some (0, take n (drop index text)).
Proof.
  unfold String_search. intros H.
  destruct (RegExpBuiltinExec (compile p) text) as [[j m]|] eqn:E; [|done].
  simpl in H. injection H as ->.
  apply exec_compile_Some in E as (Hj & (n & Hn & ->) & Hk).
  split; [done|]. exists n. split; [done|].
  apply exec_compile_Some. repeat split; [lia| |intros; lia].
  exists n. now rewrite drop_0.
Qed.

Lemma replace_re_compile_rest p text index :
  String_search text (compile p) = Some index ->
  exists n, matchSeq p (drop index text) = Some n /\
    String_replace_re (drop index text) (compile p) []
      = drop n (drop index text).
Proof.
  intros H. apply search_compile_rest in H as (Hi & n & Hn & He).
  exists n. split; [done|]. unfold String_replace_re. rewrite He.
  simpl. rewrite length_take. apply matchSeq_le in Hn.
  now rewrite Nat.min_l by done.
Qed.

(** *** [indexOf] and [replace] with a string pattern *)

Lemma startsWith_spec s p : startsWith s p = true <-> exists t, s = p ++ t.
Proof.
  revert s. induction p as [|c p IH]; intros s; simpl.
  - split; eauto.
  - destruct s as [|d s].
    + split; [done|]. now intros [t ?].
    + rewrite andb_true_iff, N.eqb_eq, IH. split.
      * intros [-> [t ->]]. eauto.
      * intros [t [= -> ->]]. eauto.
Qed.

Lemma indexOf_Some s p i :
  indexOf s p = Some i ->
  i + length p <= length s /\ take (length p) (drop i s) = p.
Proof.
  revert i. induction s as [|c s IH]; intros i H.
  - simpl in H. destruct (startsWith [] p) eqn:E; [|done].
    injection H as <-.
    apply startsWith_spec in E as [t E]. destruct p; [|done]. done.
  - cbn [indexOf] in H. destruct (startsWith (c :: s) p) eqn:E.
    + injection H as <-. apply startsWith_spec in E as [t E].
      rewrite E, length_app, drop_0, take_app_length. split; [lia|done].
    + destruct (indexOf s p) as [j|]; [|done]. simpl in H.
      injection H as <-. destruct (IH j eq_refl). simpl. split; [lia|done].
Qed.

Lemma String_replace_nil_length s p :
  length (String_replace s p []) <= length s.
Proof.
  unfold String_replace. destruct (indexOf s p) as [i|]; [|done].
  simpl. rewrite length_app, length_take, length_drop. lia.
Qed.

End JSFacts.

Import JS.

(** ** Completions

    A call returns normally, throws, or is cut off because the fuel that
    bounds loop iterations and nested calls ran out. *)

Inductive completion (A : Type) : Type :=
| Normal (a : A)
| Throw
| OutOfFuel.
Arguments Normal {A} a.
Arguments Throw {A}.
Arguments OutOfFuel {A}.

#[global] Instance completion_ret : MRet completion := @Normal.
#[global] Instance completion_bind : MBind completion :=
  fun A B f m =>
    match m with
    | Normal a => f a
    | Throw => Throw
    | OutOfFuel => OutOfFuel
    end.

Definition terminates {A} (c : completion A) : Prop := c <> OutOfFuel.

(** ** The widget module *)

Module Widget.

(** [/\$\$widget\d+\s/] *)
Definition markerItems : list item :=
  map (fun c => One (lit c)) (str "$$widget") ++ [Plus isDigit; One isSpace].

Definition reWidgetPrefix : RegExp := compile markerItems.

(** The text handed to the recursive call of [unwrapWidgetSyntax]. *)
Definition replaced (text : jstring) (index : nat) : jstring :=
  let rest := substring_from text index in
  String_replace (String_replace_re rest reWidgetPrefix []) (str "$$") [].

(** The recursive call is on a strictly shorter text: what it receives is
    shorter than the rest of the text from the match on. *)
Lemma replaced_shorter (text : jstring) (index : nat) :
  String_search text reWidgetPrefix = Some index ->
  index + length (replaced text index) < length text.
Proof.
  intros H. unfold replaced. cbv zeta. rewrite JSFacts.substring_from_drop.
  destruct (JSFacts.replace_re_compile_rest _ _ _ H) as (n & Hn & Hr).
  fold reWidgetPrefix in Hr. rewrite Hr.
  pose proof (JSFacts.String_replace_nil_length
                (drop n (drop index text)) (str "$$")) as Hle.
  pose proof (JSFacts.matchSeq_le _ _ _ Hn) as Hlen.
  apply JSFacts.matchSeq_One_pos in Hn.
  rewrite !length_drop in *. lia.
Qed.

Equations? unwrapWidgetSyntax (text : jstring) : jstring
  by wf (length text) lt :=
  unwrapWidgetSyntax text
    with Logic.inspect (String_search text reWidgetPrefix) := {
    | exist _ (Some index) Hindex =>
        substring text 0 index ++ unwrapWidgetSyntax (replaced text index);
    | exist _ None _ => text
  }.
Proof. apply replaced_shorter in Hindex. lia. Qed.

(** [unwrapWidgetSyntax] with its recursion depth bounded by [fuel]. *)
Fixpoint unwrapWidgetSyntax_fuel (fuel : nat) (text : jstring)
  : completion jstring :=
  match String_search text reWidgetPrefix with
  | Some index =>
      match fuel with
      | 0 => OutOfFuel
      | S fuel' =>
          inner ← unwrapWidgetSyntax_fuel fuel' (replaced text index);
          mret (substring text 0 index ++ inner)
      end
  | None => mret text
  end.

Definition createWidgetContent (info content : jstring) : jstring :=
  let safeContent :=
    String_replaceAll content (str "$$") (str "$" ++ [ZWSP] ++ str "$") in
  str "$$" ++ info ++ str " " ++ safeContent ++ str "$$".

(** [`widget${index}`] *)
Definition widgetId (index : nat) : jstring :=
  str "widget" ++ Number_toString index.

Record WidgetRule (DOM : Type) : Type := mkWidgetRule {
  rule : RegExp;
  toDOM : jstring -> DOM
}.
Arguments mkWidgetRule {DOM} rule toDOM.
Arguments rule {DOM} w.
Arguments toDOM {DOM} w text.

(** The module state: the rule list and the object used as a map from
    ids to rules. *)
Record Registry (DOM : Type) : Type := mkRegistry {
  widgetRules : list (WidgetRule DOM);
  widgetRuleMap : gmap jstring (WidgetRule DOM)
}.
Arguments mkRegistry {DOM} widgetRules widgetRuleMap.
Arguments widgetRules {DOM} r.
Arguments widgetRuleMap {DOM} r.

Definition initial {DOM : Type} : Registry DOM := mkRegistry [] ∅.

(** The nodes of the document model are made by the schema. *)
Record Schema (Node : Type) : Type := mkSchema {
  schema_text : jstring -> Node;
  widget_create : jstring -> Node -> Node
}.
Arguments schema_text {Node} s text.
Arguments widget_create {Node} s info content.

(** A document model to run the segmentation on: text nodes, and widget
    nodes with their [info] attribute and their text child. *)
Inductive ProsemirrorNode : Type :=
| TextNode (text : jstring)
| WidgetNode (info : jstring) (content : ProsemirrorNode).

Definition pmSchema : Schema ProsemirrorNode :=
  mkSchema ProsemirrorNode TextNode WidgetNode.

(** The rules of the segmentation example: [/\$\S+/] and [/#\S+/]. *)
Definition dollarRule : RegExp := compile [One (lit 36); Plus notSpace].
Definition hashRule : RegExp := compile [One (lit 35); Plus notSpace].

(** Every match of the pattern spans at least one code unit. *)
Definition nonempty_matches (re : RegExp) : Prop :=
  forall s index matched,
    RegExpBuiltinExec re s = Some (index, matched) -> matched <> [].

Section Registry.
Context {DOM : Type}.

(** Destructuring [widgetRuleMap[info]] throws a TypeError when the id
    has no entry. *)
Definition widgetToDOM (st : Registry DOM) (info text : jstring)
  : completion DOM :=
  match widgetRuleMap st !! info with
  | None => Throw
  | Some (mkWidgetRule rule toDOM) =>
      let matches := String_match (unwrapWidgetSyntax text) rule in
      let text :=
        match matches with
        | Some m => m
        | None => text
        end in
      mret (toDOM text)
  end.

Definition getWidgetRules (st : Registry DOM) : list (WidgetRule DOM) :=
  widgetRules st.

(** The [forEach] of [setWidgetRules], from [index] on. *)
Fixpoint forEach_assign (rules : list (WidgetRule DOM)) (index : nat)
    (map : gmap jstring (WidgetRule DOM)) : gmap jstring (WidgetRule DOM) :=
  match rules with
  | [] => map
  | rule :: rules' =>
      forEach_assign rules' (S index) (<[widgetId index := rule]> map)
  end.

Definition setWidgetRules (rules : list (WidgetRule DOM))
    (st : Registry DOM) : Registry DOM :=
  mkRegistry rules (forEach_assign rules 0 (widgetRuleMap st)).
End Registry.

Section Segmentation.
Context {DOM Node : Type}.
Variable st : Registry DOM.
Variable schema : Schema Node.

(** [create] is [createNodesWithWidget] at the fuel left for calls. *)
Definition mergeNodes
    (create : jstring -> nat -> completion (list Node))
    (nodes : list Node) (text : jstring) (ruleIndex : nat)
  : completion (list Node) :=
  created ← create text ruleIndex;
  mret (nodes ++ created).

(** The [while] loop of [createNodesWithWidget]; it yields the nodes and
    the text left when [search] finds no further match. *)
Fixpoint matchLoop
    (create : jstring -> nat -> completion (list Node))
    (rule : RegExp) (ruleIndex nextRuleIndex : nat)
    (fuel : nat) (nodes : list Node) (text : jstring)
  : completion (list Node * jstring) :=
  match String_search text rule with
  | None => mret (nodes, text)
  | Some index =>
      match fuel with
      | 0 => OutOfFuel
      | S fuel' =>
          let prev := substring text 0 index in
          nodes ← (if bool_decide (prev <> [])
                   then mergeNodes create nodes prev nextRuleIndex
                   else mret nodes);
          let text := substring_from text index in
          match String_match text rule with
          | None => Throw
          | Some literal =>
              let info := widgetId ruleIndex in
              let nodes :=
                nodes ++ [widget_create schema info
                            (schema_text schema
                               (createWidgetContent info literal))] in
              matchLoop create rule ruleIndex nextRuleIndex fuel' nodes
                (substring_from text (length literal))
          end
      end
  end.

(** [fuel] bounds the depth of the calls and the iterations of the loop.
    [rule] is [None] when [widgetRules[ruleIndex]] is undefined;
    [ruleIndex < widgetRules.length - 1] is written without the
    subtraction, which has no negative result on [nat]. *)
Fixpoint createNodesWithWidget (fuel : nat) (text : jstring)
    (ruleIndex : nat) : completion (list Node) :=
  match fuel with
  | 0 => OutOfFuel
  | S fuel' =>
      let create := createNodesWithWidget fuel' in
      let nodes := [] in
      let rule := rule <$> widgetRules st !! ruleIndex in
      let nextRuleIndex := ruleIndex + 1 in
      let text := unwrapWidgetSyntax text in
      let otherwise :=
        if bool_decide (text <> []) then
          if bool_decide (ruleIndex + 1 < length (widgetRules st))
          then mergeNodes create nodes text nextRuleIndex
          else mret [schema_text schema text]
        else mret nodes in
      match rule with
      | Some rule =>
          if RegExp_test rule text then
            '(nodes, text) ←
              matchLoop create rule ruleIndex nextRuleIndex fuel' nodes text;
            if bool_decide (text <> [])
            then mergeNodes create nodes text nextRuleIndex
            else mret nodes
          else otherwise
      | None => otherwise
      end
  end.
End Segmentation.

(** *** The parsed widget node and its walker *)

(** A node of the Markdown tree: its type tag, its literal and its
    children in order. *)
#[warnings="-register-all"]
Inductive MdNode : Type :=
| mkMdNode (type literal : jstring) (children : list MdNode).

Definition type (n : MdNode) : jstring :=
  match n with mkMdNode t _ _ => t end.
Definition literal (n : MdNode) : jstring :=
  match n with mkMdNode _ l _ => l end.
Definition children (n : MdNode) : list MdNode :=
  match n with mkMdNode _ _ cs => cs end.

Fixpoint descend (n : MdNode) (path : list nat) : option MdNode :=
  match path with
  | [] => Some n
  | i :: path' =>
      match children n !! i with
      | Some c => descend c path'
      | None => None
      end
  end.

(** A node of the tree under [root] is identified by its address: the
    child indexes on the way up to the root, innermost first, so that the
    root has address [[]], the parent of [i :: up] is [up] and its next
    sibling is [S i :: up]. *)
Definition nodeAt (root : MdNode) (address : list nat) : option MdNode :=
  descend root (rev address).

Record Event : Type := mkEvent {
  address : list nat;
  node : MdNode;
  entering : bool
}.

(** Modelled from the spec: the Markdown subtree walker, whose class is not
    among the sources.  It is a stateful depth-first iterator over the
    subtree of its root that yields an event on entering a node and, for a
    container, on leaving it; [next] yields the event at the cursor and
    advances, [None] once the exit of the root has been passed;
    [resumeAt] repositions the cursor.  Which nodes are containers is left
    to [isContainer]. *)
Record NodeWalker : Type := mkNodeWalker {
  root : MdNode;
  current : option (list nat);
  cursor_entering : bool
}.

(** Modelled from the spec: [widgetNode.walker()], a walker whose cursor
    is at the entering event of the widget node. *)
Definition walker (widgetNode : MdNode) : NodeWalker :=
  mkNodeWalker widgetNode (Some []) true.

(** Modelled from the spec: [resumeAt(node, entering)] repositions the
    cursor. *)
Definition resumeAt (w : NodeWalker) (address : list nat) (entering : bool)
  : NodeWalker :=
  mkNodeWalker (root w) (Some address) entering.

Section Extractor.
Variable isContainer : MdNode -> bool.
Variable getInlineMarkdownText : MdNode -> jstring.

(** Modelled from the spec: [next()] yields the event at the cursor, or
    [None] when the traversal is over, and advances depth first: from
    entering a container to its first child, or to its own exit when it
    has none; from a leaf or from an exit to the next sibling, or to the
    exit of the parent after the last sibling; from the exit of the root
    to the end. *)
Definition next (w : NodeWalker) : option Event * NodeWalker :=
  match current w with
  | None => (None, w)
  | Some cur =>
      match nodeAt (root w) cur with
      | None => (None, w)
      | Some n =>
          let entering := cursor_entering w in
          let w' :=
            if entering && isContainer n then
              match children n with
              | _ :: _ => mkNodeWalker (root w) (Some (0 :: cur)) true
              | [] => mkNodeWalker (root w) (Some cur) false
              end
            else
              match cur with
              | [] => mkNodeWalker (root w) None entering
              | i :: up =>
                  match nodeAt (root w) (S i :: up) with
                  | Some _ => mkNodeWalker (root w) (Some (S i :: up)) true
                  | None => mkNodeWalker (root w) (Some up) false
                  end
              end in
          (Some (mkEvent cur n entering), w')
      end
  end.

(** The loop of [getWidgetContent]; the widget node is the root of the
    walker, at address [[]]. *)
Fixpoint walk (fuel : nat) (w : NodeWalker) (text : jstring)
  : completion jstring :=
  match fuel with
  | 0 => OutOfFuel
  | S fuel' =>
      match next w with
      | (None, _) => mret text
      | (Some (mkEvent address node entering), w) =>
          if entering then
            if bool_decide (address <> [])
               && bool_decide (type node <> str "text")
            then
              let text := text ++ getInlineMarkdownText node in
              (* skip the children *)
              let w := resumeAt w [] false in
              let w := snd (next w) in
              walk fuel' w text
            else if bool_decide (type node = str "text") then
              walk fuel' w (text ++ literal node)
            else walk fuel' w text
          else walk fuel' w text
      end
  end.

Definition getWidgetContent (fuel : nat) (widgetNode : MdNode)
  : completion jstring :=
  walk fuel (walker widgetNode) [].
End Extractor.

(** *** Vocabulary for the properties of the segmentation *)

(** The pattern looks at the text from the start index on only: the first
    match in a text is also the first match, at index 0, in the rest of
    the text from that match on.  Patterns without look-behind, anchors
    and word boundaries are of this kind. *)
Definition position_independent (re : RegExp) : Prop :=
  forall s index matched,
    RegExpBuiltinExec re s = Some (index, matched) ->
    RegExpBuiltinExec re (drop index s) = Some (0, matched).

(** The text a node stands for: the text of a text node, the decoded
    payload of a widget node. *)
Fixpoint nodeText (n : ProsemirrorNode) : jstring :=
  match n with
  | TextNode text => text
  | WidgetNode _ content => unwrapWidgetSyntax (nodeText content)
  end.

(** The shape of the nodes that [createNodesWithWidget] makes from the
    rule index [ruleIndex] on, with [count] rules registered. *)
Definition madeFrom (count ruleIndex : nat) (n : ProsemirrorNode) : Prop :=
  match n with
  | TextNode text => text <> []
  | WidgetNode info (TextNode payload) =>
      exists index literal,
        ruleIndex <= index < count
        /\ info = widgetId index
        /\ payload = createWidgetContent info literal
  | WidgetNode _ (WidgetNode _ _) => False
  end.

End Widget.

Import Widget.

(** ** The delimiter codec *)

Section Codec.

(** The recursion equation of [unwrapWidgetSyntax], as in the source. *)
Lemma unwrapWidgetSyntax_eq (text : jstring) :
  unwrapWidgetSyntax text =
  match String_search text reWidgetPrefix with
  | Some index =>
      substring text 0 index ++ unwrapWidgetSyntax (replaced text index)
  | None => text
  end.
Proof.
  simp unwrapWidgetSyntax.
  destruct (Logic.inspect (String_search text reWidgetPrefix))
    as [[index|] H].
  - transitivity
      (substring text 0 index ++ unwrapWidgetSyntax (replaced text index));
      [now simp unwrapWidgetSyntax | now rewrite H].
  - transitivity text; [now simp unwrapWidgetSyntax | now rewrite H].
Qed.

Lemma search_nil : String_search [] reWidgetPrefix = None.
Proof. reflexivity. Qed.

Lemma unwrapWidgetSyntax_fuel_enough (fuel : nat) :
  forall text, length text <= fuel ->
    unwrapWidgetSyntax_fuel fuel text = Normal (unwrapWidgetSyntax text).
Proof.
  induction fuel as [|fuel IH]; intros text Hlen;
    rewrite unwrapWidgetSyntax_eq; simpl.
  - destruct text; [|simpl in Hlen; lia]. now rewrite search_nil.
  - destruct (String_search text reWidgetPrefix) as [index|] eqn:E; [|done].
    apply replaced_shorter in E. rewrite IH by lia. done.
Qed.

(** Decoding only deletes code units. *)
Lemma String_replace_nil_sublist (s p : jstring) :
  String_replace s p [] `sublist_of` s.
Proof.
  unfold String_replace. destruct (indexOf s p) as [i|]; [|done].
  simpl. rewrite <- (take_drop i s) at 3. apply sublist_app; [done|].
  rewrite <- drop_drop. apply sublist_drop.
Qed.

Lemma replaced_sublist (text : jstring) (index : nat) :
  String_search text reWidgetPrefix = Some index ->
  replaced text index `sublist_of` drop index text.
Proof.
  intros H. unfold replaced. cbv zeta. rewrite JSFacts.substring_from_drop.
  destruct (JSFacts.replace_re_compile_rest _ _ _ H) as (n & Hn & Hr).
  fold reWidgetPrefix in Hr. rewrite Hr.
  etrans; [apply String_replace_nil_sublist|apply sublist_drop].
Qed.

(** Induction along the recursive calls of [unwrapWidgetSyntax]. *)
Lemma unwrapWidgetSyntax_ind (P : jstring -> Prop) :
  (forall text,
      (forall index, String_search text reWidgetPrefix = Some index ->
                     P (replaced text index)) ->
      P text) ->
  forall text, P text.
Proof.
  intros step text. remember (length text) as n eqn:Hn.
  revert text Hn. induction (lt_wf n) as [n _ IH]. intros text ->.
  apply step. intros index Hindex.
  apply (IH (length (replaced text index))); [|done].
  apply replaced_shorter in Hindex. lia.
Qed.

Lemma unwrapWidgetSyntax_sublist (text : jstring) :
  unwrapWidgetSyntax text `sublist_of` text.
Proof.
  induction text as [text IH] using unwrapWidgetSyntax_ind.
  rewrite unwrapWidgetSyntax_eq.
  destruct (String_search text reWidgetPrefix) as [index|] eqn:E; [|done].
  rewrite JSFacts.substring_0. rewrite <- (take_drop index text) at 3.
  apply sublist_app; [done|].
  etrans; [exact (IH index eq_refl)|]. now apply replaced_sublist.
Qed.

Lemma unwrapWidgetSyntax_no_marker (text : jstring) :
  String_search text reWidgetPrefix = None -> unwrapWidgetSyntax text = text.
Proof. intros H. now rewrite unwrapWidgetSyntax_eq, H. Qed.

Lemma unwrapWidgetSyntax_marker_shrinks (text : jstring) (index : nat) :
  String_search text reWidgetPrefix = Some index ->
  length (unwrapWidgetSyntax text) < length text.
Proof.
  intros H. rewrite unwrapWidgetSyntax_eq, H, JSFacts.substring_0.
  rewrite length_app, length_take.
  pose proof (sublist_length _ _
                (unwrapWidgetSyntax_sublist (replaced text index))).
  apply replaced_shorter in H. lia.
Qed.

Lemma unwrapWidgetSyntax_fixpoint (text : jstring) :
  unwrapWidgetSyntax text = text <->
  String_search text reWidgetPrefix = None.
Proof.
  split; [|apply unwrapWidgetSyntax_no_marker].
  intros H. destruct (String_search text reWidgetPrefix) as [index|] eqn:E;
    [|done].
  apply unwrapWidgetSyntax_marker_shrinks in E. rewrite H in E. lia.
Qed.

(** *** Texts without the delimiter *)

Lemma includes_false_startsWith (s p : jstring) :
  includes s p = false -> startsWith s p = false.
Proof.
  unfold includes. rewrite bool_decide_eq_false. intros H.
  destruct (startsWith s p) eqn:E; [|done]. exfalso. apply H.
  destruct s; simpl; rewrite E; eauto.
Qed.

Lemma includes_false_tail (c : N) (s p : jstring) :
  includes (c :: s) p = false -> includes s p = false.
Proof.
  unfold includes. rewrite !bool_decide_eq_false. intros H [i Hi].
  apply H. cbn [indexOf]. destruct (startsWith (c :: s) p); [eauto|].
  rewrite Hi. simpl. eauto.
Qed.

Lemma includes_false_drop (p : jstring) (k : nat) :
  forall s, includes s p = false -> startsWith (drop k s) p = false.
Proof.
  induction k as [|k IH]; intros s H.
  - rewrite drop_0. now apply includes_false_startsWith.
  - destruct s as [|c s]; [now apply includes_false_startsWith|].
    simpl. apply IH. eapply includes_false_tail, H.
Qed.

(** [includes] says that the pattern occurs as a contiguous part. *)
Lemma includes_spec (s p : jstring) :
  includes s p = true <-> exists l1 l2, s = l1 ++ p ++ l2.
Proof.
  unfold includes. rewrite bool_decide_eq_true. split.
  - intros [i Hi]. apply JSFacts.indexOf_Some in Hi as [Hle Hp].
    exists (take i s), (drop (length p) (drop i s)).
    rewrite <- Hp at 1. now rewrite !take_drop.
  - intros (l1 & l2 & ->). induction l1 as [|c l1 IH]; simpl.
    + assert (startsWith (p ++ l2) p = true) as E
        by (apply JSFacts.startsWith_spec; eauto).
      destruct (p ++ l2); simpl; rewrite E; eauto.
    + destruct (startsWith (c :: l1 ++ p ++ l2) p); [eauto|].
      destruct IH as [i ->]. simpl. eauto.
Qed.

Lemma replaceAllFrom_absent (p repl : jstring) :
  forall s before, includes s p = false ->
    replaceAllFrom p repl before 0 s = s.
Proof.
  induction s as [|c s IH]; intros before H; [done|].
  cbn [replaceAllFrom]. rewrite (includes_false_startsWith _ _ H).
  f_equal. apply IH. eapply includes_false_tail, H.
Qed.

Lemma String_replace_cons (c : N) (s p : jstring) :
  startsWith (c :: s) p = false ->
  String_replace (c :: s) p [] = c :: String_replace s p [].
Proof.
  intros H. unfold String_replace. cbn [indexOf]. rewrite H.
  destruct (indexOf s p); done.
Qed.

(** Removing the first [$$] of a text without [$$] that was closed by
    [$$] gives the text back, also when the text ends in a dollar sign. *)
Lemma String_replace_closing (c : jstring) :
  includes c (str "$$") = false ->
  String_replace (c ++ str "$$") (str "$$") [] = c.
Proof.
  induction c as [|x c IH]; intros H; [done|].
  pose proof (includes_false_startsWith _ _ H) as Hx.
  pose proof (includes_false_tail _ _ _ H) as Hc.
  destruct (startsWith ((x :: c) ++ str "$$") (str "$$")) eqn:E.
  - apply JSFacts.startsWith_spec in E as [t E].
    change (str "$$") with [36%N; 36%N] in *. destruct c as [|y c].
    + injection E as -> _. reflexivity.
    + injection E as -> -> _.
      assert (startsWith (36%N :: 36%N :: c) [36%N; 36%N] = true) as Ht
        by (apply JSFacts.startsWith_spec; now exists c).
      congruence.
  - simpl. rewrite String_replace_cons by done. f_equal. now apply IH.
Qed.

(** *** The widget-open marker *)

Lemma isSpace_not_digit (w : N) : isSpace w = true -> isDigit w = false.
Proof.
  unfold isSpace, isDigit. intros H.
  apply andb_false_iff. rewrite !N.leb_gt.
  rewrite !orb_true_iff, !andb_true_iff, !N.leb_le, !N.eqb_eq in H. lia.
Qed.

Lemma star_digits (ds : jstring) (w : N) (rest : jstring) :
  forallb isDigit ds = true -> isSpace w = true ->
  star isDigit (matchSeq [One isSpace]) (ds ++ w :: rest)
    = Some (length ds + 1).
Proof.
  intros Hds Hw. induction ds as [|d ds IH]; cbn [star app length].
  - rewrite (isSpace_not_digit _ Hw). simpl. now rewrite Hw.
  - simpl in Hds. apply andb_true_iff in Hds as [-> Hds].
    now rewrite IH.
Qed.

Lemma matchSeq_literal (l : jstring) (p : list item) (s : jstring) :
  matchSeq (map (fun c => One (lit c)) l ++ p) (l ++ s)
    = (fun n => length l + n) <$> matchSeq p s.
Proof.
  induction l as [|c l IH]; cbn [map app matchSeq length].
  - now destruct (matchSeq p s).
  - unfold lit at 1. rewrite N.eqb_refl, IH. now destruct (matchSeq p s).
Qed.

(** The marker matches at the start of [$$widget], digits, white space. *)
Lemma matchSeq_marker (ds : jstring) (w : N) (rest : jstring) :
  ds <> [] -> forallb isDigit ds = true -> isSpace w = true ->
  matchSeq markerItems ((str "$$widget" ++ ds ++ [w]) ++ rest)
    = Some (length (str "$$widget" ++ ds ++ [w])).
Proof.
  intros Hne Hds Hw.
  replace ((str "$$widget" ++ ds ++ [w]) ++ rest)
    with (str "$$widget" ++ ds ++ w :: rest) by (now rewrite <- !app_assoc).
  destruct ds as [|d ds]; [done|].
  simpl in Hds. apply andb_true_iff in Hds as [Hd Hds].
  unfold markerItems. rewrite matchSeq_literal.
  change (matchSeq [Plus isDigit; One isSpace] ((d :: ds) ++ w :: rest))
    with (if isDigit d
          then S <$> star isDigit (matchSeq [One isSpace]) (ds ++ w :: rest)
          else None).
  rewrite Hd, (star_digits ds w rest Hds Hw).
  rewrite !length_app. simpl. f_equal.
Qed.

Lemma matchSeq_marker_delimiter (s : jstring) (n : nat) :
  matchSeq markerItems s = Some n -> startsWith s (str "$$") = true.
Proof.
  change markerItems
    with (One (lit 36) :: One (lit 36) :: tail (tail markerItems)).
  change (str "$$") with [36%N; 36%N]. unfold lit.
  destruct s as [|a [|b s]]; cbn [matchSeq startsWith]; [done| |].
  - destruct (36 =? a)%N; done.
  - destruct (36 =? a)%N; [|done]. destruct (36 =? b)%N; done.
Qed.

(** A text without [$$] holds no widget-open marker. *)
Lemma search_marker_absent (c : jstring) :
  includes c (str "$$") = false -> String_search c reWidgetPrefix = None.
Proof.
  intros H. unfold String_search.
  assert (RegExpBuiltinExec reWidgetPrefix c = None) as ->; [|done].
  apply JSFacts.exec_compile_None. intros k _.
  destruct (matchSeq _ (drop k c)) as [n|] eqn:E; [|done].
  apply matchSeq_marker_delimiter in E.
  now rewrite (includes_false_drop _ k c H) in E.
Qed.

(** The encoded content opens with a marker, at index 0, and what the
    recursive call of [unwrapWidgetSyntax] receives is the content. *)
Lemma createWidgetContent_open (ds c : jstring) :
  ds <> [] -> forallb isDigit ds = true ->
  includes c (str "$$") = false ->
  let text := createWidgetContent (str "widget" ++ ds) c in
  String_search text reWidgetPrefix = Some 0 /\ replaced text 0 = c.
Proof.
  intros Hne Hds Hc. unfold createWidgetContent, String_replaceAll.
  cbv zeta. rewrite replaceAllFrom_absent by done.
  set (text := str "$$" ++ _).
  assert (text = (str "$$widget" ++ ds ++ [32%N]) ++ c ++ str "$$") as ->
    by (unfold text; now rewrite <- !app_assoc).
  pose proof (matchSeq_marker ds 32 (c ++ str "$$") Hne Hds eq_refl) as Hm.
  set (text := (str "$$widget" ++ ds ++ [32%N]) ++ c ++ str "$$") in *.
  assert (String_search text reWidgetPrefix = Some 0) as Hs.
  { unfold String_search.
    assert (RegExpBuiltinExec reWidgetPrefix text
            = Some (0, take (length (str "$$widget" ++ ds ++ [32%N])) text))
      as ->; [|done].
    apply JSFacts.exec_compile_Some. rewrite drop_0.
    repeat split; [lia|eauto|intros; lia]. }
  split; [done|].
  unfold replaced. cbv zeta. rewrite JSFacts.substring_from_drop.
  destruct (JSFacts.replace_re_compile_rest _ _ _ Hs) as (n & Hn & Hr).
  rewrite drop_0 in Hn, Hr. fold markerItems in Hn. rewrite Hm in Hn.
  injection Hn as <-. fold reWidgetPrefix in Hr. rewrite drop_0, Hr.
  replace (drop _ text) with (c ++ str "$$")
    by (symmetry; apply (drop_app_length (str "$$widget" ++ ds ++ [32%N]))).
  now apply String_replace_closing.
Qed.

(** C1, as amended.  A text is a fixed point of [unwrapWidgetSyntax]
    exactly when it holds no widget-open marker; so decoding twice gives
    the same as decoding once exactly when the result of the first pass
    holds no marker.  One pass does not ensure that for every text. *)
Theorem unwrapWidgetSyntax_idempotent_iff (x : jstring) :
  (unwrapWidgetSyntax x = x <-> String_search x reWidgetPrefix = None)
  /\ (unwrapWidgetSyntax (unwrapWidgetSyntax x) = unwrapWidgetSyntax x
      <-> String_search (unwrapWidgetSyntax x) reWidgetPrefix = None).
Proof. split; apply unwrapWidgetSyntax_fixpoint. Qed.

(** C1, counterexample.  In [$$wid$$widget0 get1 x] the first marker starts
    at index 5; the text before it joins the decoded rest into
    [$$widget1 x], which opens with a marker and decodes further to [x]. *)
Lemma unwrapWidgetSyntax_not_idempotent :
  let x := str "$$wid$$widget0 get1 x" in
  unwrapWidgetSyntax x = str "$$widget1 x"
  /\ String_search (unwrapWidgetSyntax x) reWidgetPrefix = Some 0
  /\ unwrapWidgetSyntax (unwrapWidgetSyntax x) = str "x"
  /\ unwrapWidgetSyntax (unwrapWidgetSyntax x) <> unwrapWidgetSyntax x.
Proof. vm_compute. repeat split; done. Qed.

(** C5.  Round trip of the codec: for an id [widget] followed by one or
    more digits and a content without the delimiter [$$], decoding the
    encoded content gives the content back. *)
Theorem unwrap_createWidgetContent (ds c : jstring) :
  ds <> [] -> forallb isDigit ds = true ->
  includes c (str "$$") = false ->
  unwrapWidgetSyntax (createWidgetContent (str "widget" ++ ds) c) = c.
Proof.
  intros Hne Hds Hc.
  destruct (createWidgetContent_open ds c Hne Hds Hc) as [Hs Hr].
  rewrite unwrapWidgetSyntax_eq, Hs, Hr.
  rewrite unwrapWidgetSyntax_no_marker by now apply search_marker_absent.
  now rewrite JSFacts.substring_0, take_0.
Qed.

Lemma unwrap_createWidgetContent_witness :
  str "12" <> [] /\ forallb isDigit (str "12") = true
  /\ includes (str "$te$t") (str "$$") = false
  /\ unwrapWidgetSyntax
       (createWidgetContent (str "widget" ++ str "12") (str "$te$t"))
     = str "$te$t".
Proof.
  split; [done|]. split; [reflexivity|]. split; [reflexivity|].
  apply unwrap_createWidgetContent; [done|reflexivity|reflexivity].
Defined.

(** C6.  [createWidgetContent("widget0", "a$$b")] puts a zero-width space
    between the two dollar signs of the content and wraps the result;
    decoding that strips the marker and the closing delimiter and keeps
    the zero-width space. *)
Theorem createWidgetContent_escapes :
  createWidgetContent (str "widget0") (str "a$$b")
    = str "$$widget0 a$" ++ [ZWSP] ++ str "$b$$"
  /\ unwrapWidgetSyntax (str "$$widget0 a$" ++ [ZWSP] ++ str "$b$$")
     = str "a$" ++ [ZWSP] ++ str "$b".
Proof. split; vm_compute; reflexivity. Qed.

(** C8.  [unwrapWidgetSyntax] terminates: when the marker is found, the
    text of the recursive call is strictly shorter than the current text,
    and a recursion depth of the length of the text is enough for the
    result. *)
Theorem unwrapWidgetSyntax_terminates (text : jstring) :
  (forall index,
      String_search text reWidgetPrefix = Some index ->
      length (replaced text index) < length text)
  /\ unwrapWidgetSyntax_fuel (length text) text
     = Normal (unwrapWidgetSyntax text).
Proof.
  split.
  - intros index H. apply replaced_shorter in H. lia.
  - now apply unwrapWidgetSyntax_fuel_enough.
Qed.

Lemma unwrapWidgetSyntax_terminates_witness :
  let text := str "a$$widget0 b$$c" in
  length (replaced text 1) < length text
  /\ unwrapWidgetSyntax_fuel (length text) text = Normal (str "abc").
Proof.
  intros text. destruct (unwrapWidgetSyntax_terminates text) as [H1 H2].
  split; [apply H1; reflexivity|]. rewrite H2. reflexivity.
Defined.

(** C10.  The result of [unwrapWidgetSyntax] is a subsequence of its
    input: decoding deletes code units and neither inserts nor reorders
    any; so the result is no longer than the input. *)
Theorem unwrapWidgetSyntax_subsequence (text : jstring) :
  unwrapWidgetSyntax text `sublist_of` text
  /\ length (unwrapWidgetSyntax text) <= length text.
Proof.
  pose proof (unwrapWidgetSyntax_sublist text) as H.
  split; [done|]. now apply sublist_length.
Qed.

End Codec.

(** ** The rule registry *)

Section Ids.

Lemma str_inj (s1 s2 : String.string) : str s1 = str s2 -> s1 = s2.
Proof.
  assert (forall l, map ascii_of_N (map N_of_ascii l) = l) as Hl.
  { induction l as [|a l IH]; [done|].
    simpl. now rewrite ascii_N_embedding, IH. }
  unfold str. intros H. apply (f_equal (map ascii_of_N)) in H.
  rewrite !Hl in H. apply (f_equal string_of_list_ascii) in H.
  now rewrite !string_of_list_ascii_of_string in H.
Qed.

Lemma to_uint_nonnil (n : nat) : Nat.to_uint n <> Decimal.Nil.
Proof.
  intros E. pose proof (DecimalNat.Unsigned.to_of (Nat.to_uint n)) as H.
  rewrite DecimalNat.Unsigned.of_to, E in H. discriminate H.
Qed.

Lemma Number_toString_inj (i j : nat) :
  Number_toString i = Number_toString j -> i = j.
Proof.
  unfold Number_toString. intros H. apply str_inj in H.
  apply (f_equal NilZero.uint_of_string) in H.
  rewrite !NilZero.usu in H by apply to_uint_nonnil.
  injection H as H. now apply DecimalNat.Unsigned.to_uint_inj.
Qed.

(** Distinct indexes get distinct ids. *)
Lemma widgetId_inj (i j : nat) : widgetId i = widgetId j -> i = j.
Proof.
  unfold widgetId. intros H. apply app_inv_head in H.
  now apply Number_toString_inj.
Qed.

End Ids.

Section RegistryFacts.
Context {DOM : Type}.
Implicit Types (st : Registry DOM) (rules : list (WidgetRule DOM)).

(** The entries after the [forEach] of [setWidgetRules]: the ids of the
    indexes of the new list are assigned, every other entry is kept. *)
Lemma forEach_assign_lookup rules :
  forall (k : nat) (m : gmap jstring (WidgetRule DOM)) (i : nat),
    forEach_assign rules k m !! widgetId i =
    if decide (k <= i < k + length rules) then rules !! (i - k)
    else m !! widgetId i.
Proof.
  induction rules as [|r rules IH]; intros k m i; cbn [forEach_assign].
  - case_decide; [simpl in *; lia|done].
  - rewrite IH. cbn [length].
    destruct (decide (i = k)) as [->|Hne].
    + rewrite lookup_insert_eq, Nat.sub_diag.
      repeat case_decide; try lia; done.
    + rewrite lookup_insert_ne by (intros E; apply widgetId_inj in E; lia).
      repeat case_decide; try lia; try done.
      replace (i - k) with (S (i - S k)) by lia. done.
Qed.

Lemma setWidgetRules_lookup rules st (i : nat) :
  widgetRuleMap (setWidgetRules rules st) !! widgetId i =
  if decide (i < length rules) then rules !! i
  else widgetRuleMap st !! widgetId i.
Proof.
  unfold setWidgetRules. cbn [widgetRuleMap].
  rewrite forEach_assign_lookup, Nat.sub_0_r.
  repeat case_decide; try lia; done.
Qed.

Lemma widgetToDOM_registered st (info text : jstring) (r : WidgetRule DOM) :
  widgetRuleMap st !! info = Some r ->
  widgetToDOM st info text =
  Normal (toDOM r match String_match (unwrapWidgetSyntax text) (rule r) with
                  | Some m => m
                  | None => text
                  end).
Proof. intros H. unfold widgetToDOM. rewrite H. now destruct r. Qed.

(** C2, as amended.  For a registered id whose pattern has no match in the
    decoded text, [widgetToDOM] hands the text it was given, unchanged and
    still encoded, to the conversion function of the rule. *)
Theorem widgetToDOM_no_match st (info text : jstring) (r : WidgetRule DOM) :
  widgetRuleMap st !! info = Some r ->
  String_match (unwrapWidgetSyntax text) (rule r) = None ->
  widgetToDOM st info text = Normal (toDOM r text).
Proof.
  intros Hr Hm. now rewrite (widgetToDOM_registered _ _ _ _ Hr), Hm.
Qed.

(** C3, as amended.  [setWidgetRules] replaces the rule list and assigns
    the ids of the indexes of the new list without clearing the map: after
    [setWidgetRules(rs1)] and then [setWidgetRules(rs2)], an id [widget<i>]
    with [length rs2 <= i < length rs1] still maps to [rs1[i]], and
    [widgetToDOM] dispatches to that rule. *)
Theorem setWidgetRules_keeps_stale st (rs1 rs2 : list (WidgetRule DOM))
    (i : nat) (r : WidgetRule DOM) :
  length rs2 <= i -> rs1 !! i = Some r ->
  let st' := setWidgetRules rs2 (setWidgetRules rs1 st) in
  getWidgetRules st' = rs2
  /\ (forall j r', rs2 !! j = Some r' ->
                   widgetRuleMap st' !! widgetId j = Some r')
  /\ widgetRuleMap st' !! widgetId i = Some r
  /\ forall text,
       widgetToDOM st' (widgetId i) text =
       Normal (toDOM r
                 match String_match (unwrapWidgetSyntax text) (rule r) with
                 | Some m => m
                 | None => text
                 end).
Proof.
  intros Hi Hr st'. pose proof (lookup_lt_Some _ _ _ Hr) as Hlt.
  assert (widgetRuleMap st' !! widgetId i = Some r) as Hst.
  { unfold st'. rewrite !setWidgetRules_lookup.
    repeat case_decide; try lia; done. }
  split; [done|]. split; [|split; [done|]].
  - intros j r' Hj. pose proof (lookup_lt_Some _ _ _ Hj).
    unfold st'. rewrite setWidgetRules_lookup. now case_decide.
  - intros text. now apply widgetToDOM_registered.
Qed.

End RegistryFacts.

(** C2, counterexample.  With [/#\S+/] registered as [widget0], the text
    [$$widget0 abc$$] decodes to [abc], where the pattern has no match; the
    conversion function, here the identity, receives the encoded text. *)
Lemma widgetToDOM_no_match_encoded :
  let r := mkWidgetRule hashRule id in
  let st := setWidgetRules [r] initial in
  let text := str "$$widget0 abc$$" in
  widgetRuleMap st !! str "widget0" = Some r
  /\ unwrapWidgetSyntax text = str "abc"
  /\ String_match (unwrapWidgetSyntax text) (rule r) = None
  /\ widgetToDOM st (str "widget0") text = Normal (toDOM r text)
  /\ widgetToDOM st (str "widget0") text
     <> Normal (toDOM r (unwrapWidgetSyntax text)).
Proof.
  intros r st text.
  assert (widgetRuleMap st !! str "widget0" = Some r) as Hr by reflexivity.
  assert (unwrapWidgetSyntax text = str "abc") as Hu by reflexivity.
  rewrite (widgetToDOM_registered _ _ text _ Hr), Hu.
  repeat split; try done.
Qed.

Lemma widgetToDOM_no_match_witness :
  let r := mkWidgetRule hashRule id in
  let st := setWidgetRules [r] initial in
  let text := str "$$widget0 abc$$" in
  widgetRuleMap st !! str "widget0" = Some r
  /\ String_match (unwrapWidgetSyntax text) (rule r) = None
  /\ widgetToDOM st (str "widget0") text = Normal text.
Proof.
  intros r st text.
  split; [reflexivity|]. split; [reflexivity|].
  apply (widgetToDOM_no_match st (str "widget0") text r); reflexivity.
Defined.

(** C3, counterexample.  After two rules were registered and then one,
    [widget1] is still in the map and [widgetToDOM] dispatches to the rule
    of the first registration instead of throwing. *)
Lemma setWidgetRules_stale_entry :
  let r0 := mkWidgetRule dollarRule (fun text => str "first:" ++ text) in
  let r1 := mkWidgetRule hashRule (fun text => str "second:" ++ text) in
  let st := setWidgetRules [r0] (setWidgetRules [r0; r1] initial) in
  length [r0] <= 1 < length [r0; r1]
  /\ widgetRuleMap st !! widgetId 1 = Some r1
  /\ widgetToDOM st (widgetId 1) (str "#tag") = Normal (str "second:#tag")
  /\ widgetToDOM st (widgetId 1) (str "#tag") <> Throw.
Proof.
  intros r0 r1 st.
  assert (widgetRuleMap st !! widgetId 1 = Some r1) as Hr by reflexivity.
  rewrite (widgetToDOM_registered _ _ _ _ Hr).
  repeat split; try done. simpl; lia.
Qed.

Lemma setWidgetRules_keeps_stale_witness :
  let r0 := mkWidgetRule dollarRule (fun text => str "first:" ++ text) in
  let r1 := mkWidgetRule hashRule (fun text => str "second:" ++ text) in
  let st := setWidgetRules [r0] (setWidgetRules [r0; r1] initial) in
  length [r0] <= 1 /\ [r0; r1] !! 1 = Some r1
  /\ widgetRuleMap st !! widgetId 1 = Some r1.
Proof.
  intros r0 r1 st.
  split; [simpl; lia|]. split; [reflexivity|].
  apply (setWidgetRules_keeps_stale initial [r0; r1] [r0] 1 r1);
    [simpl; lia|reflexivity].
Defined.

(** ** The segmentation engine *)

Section Completions.
Context {A B : Type}.

Lemma terminates_bind (m : completion A) (f : A -> completion B) :
  terminates (m ≫= f) <->
  terminates m /\ forall a, m = Normal a -> terminates (f a).
Proof.
  unfold terminates. destruct m as [a| |]; simpl; split.
  - intros H. split; [done|]. now intros ? [= <-].
  - intros [_ H]. now apply H.
  - done.
  - done.
  - done.
  - now intros [? _].
Qed.

End Completions.

Section SegmentationFacts.
Context {DOM Node : Type}.
Variable st : Registry DOM.
Variable schema : Schema Node.

Local Abbreviation create := (createNodesWithWidget st schema).
Local Abbreviation loop := (matchLoop schema).

Lemma exec_bounds (re : RegExp) (s : jstring) (i : nat) (m : jstring) :
  RegExpBuiltinExec re s = Some (i, m) ->
  i <= length s /\ length m <= length s - i.
Proof.
  intros H. apply JSFacts.execFrom_Some in H as (Hi & (e & _ & ->) & _).
  rewrite length_take, length_drop. lia.
Qed.

Lemma search_exec (re : RegExp) (s : jstring) (i : nat) :
  String_search s re = Some i ->
  exists m, RegExpBuiltinExec re s = Some (i, m).
Proof.
  unfold String_search.
  destruct (RegExpBuiltinExec re s) as [[j m]|]; [|done].
  intros [= <-]. eauto.
Qed.

Lemma match_exec (re : RegExp) (s m : jstring) :
  String_match s re = Some m ->
  exists i, RegExpBuiltinExec re s = Some (i, m).
Proof.
  unfold String_match.
  destruct (RegExpBuiltinExec re s) as [[j m']|]; [|done].
  intros [= <-]. eauto.
Qed.

(** *** The result does not depend on the fuel, once there is enough *)

Lemma mergeNodes_mono
    (create1 create2 : jstring -> nat -> completion (list Node))
    (nodes : list Node) (t : jstring) (i : nat) :
  (forall t i, terminates (create1 t i) -> create2 t i = create1 t i) ->
  terminates (mergeNodes create1 nodes t i) ->
  mergeNodes create2 nodes t i = mergeNodes create1 nodes t i.
Proof.
  intros H Ht. unfold mergeNodes in *.
  apply terminates_bind in Ht as [Ht _]. now rewrite H.
Qed.

Lemma matchLoop_mono
    (create1 create2 : jstring -> nat -> completion (list Node))
    (re : RegExp) (ruleIndex nextRuleIndex : nat) :
  (forall t i, terminates (create1 t i) -> create2 t i = create1 t i) ->
  forall fuel1 fuel2 nodes t,
    fuel1 <= fuel2 ->
    terminates (loop create1 re ruleIndex nextRuleIndex fuel1 nodes t) ->
    loop create2 re ruleIndex nextRuleIndex fuel2 nodes t
    = loop create1 re ruleIndex nextRuleIndex fuel1 nodes t.
Proof.
  intros Hc. induction fuel1 as [|fuel1 IH]; intros fuel2 nodes t Hle Ht.
  - destruct fuel2; cbn [matchLoop] in *;
      destruct (String_search t re); done.
  - destruct fuel2 as [|fuel2]; [lia|]. cbn [matchLoop] in *.
    destruct (String_search t re) as [index|]; [|done].
    cbv zeta in *. apply terminates_bind in Ht as [Ht1 Ht2].
    assert ((if bool_decide (substring t 0 index <> [])
             then mergeNodes create2 nodes (substring t 0 index) nextRuleIndex
             else mret nodes)
            = (if bool_decide (substring t 0 index <> [])
               then mergeNodes create1 nodes (substring t 0 index)
                      nextRuleIndex
               else mret nodes)) as ->.
    { case_bool_decide; [|done]. now apply mergeNodes_mono. }
    destruct (if bool_decide (substring t 0 index <> []) then _ else _)
      as [nodes1| |]; [|done|done].
    specialize (Ht2 nodes1 eq_refl). cbn in *.
    destruct (String_match (substring_from t index) re) as [lit|]; [|done].
    apply IH; [lia|done].
Qed.

Lemma createNodesWithWidget_mono (fuel1 : nat) :
  forall fuel2 text ruleIndex,
    fuel1 <= fuel2 ->
    terminates (create fuel1 text ruleIndex) ->
    create fuel2 text ruleIndex = create fuel1 text ruleIndex.
Proof.
  induction fuel1 as [|fuel1 IH]; intros fuel2 text ruleIndex Hle Ht;
    [exfalso; now apply Ht|].
  destruct fuel2 as [|fuel2]; [lia|].
  assert (forall t i, terminates (create fuel1 t i) ->
                      create fuel2 t i = create fuel1 t i) as Hc
    by (intros; apply IH; [lia|done]).
  cbn [createNodesWithWidget] in *. cbv zeta in *.
  set (text' := unwrapWidgetSyntax text) in *.
  assert (terminates
            (if bool_decide (text' <> []) then
               if bool_decide (ruleIndex + 1 < length (widgetRules st))
               then mergeNodes (create fuel1) [] text' (ruleIndex + 1)
               else mret [schema_text schema text']
             else mret []) ->
          (if bool_decide (text' <> []) then
             if bool_decide (ruleIndex + 1 < length (widgetRules st))
             then mergeNodes (create fuel2) [] text' (ruleIndex + 1)
             else mret [schema_text schema text']
           else mret [])
          = (if bool_decide (text' <> []) then
               if bool_decide (ruleIndex + 1 < length (widgetRules st))
               then mergeNodes (create fuel1) [] text' (ruleIndex + 1)
               else mret [schema_text schema text']
             else mret [])) as Hother.
  { intros H. repeat case_bool_decide; try done.
    now apply mergeNodes_mono. }
  destruct (rule <$> widgetRules st !! ruleIndex) as [re|]; [|auto].
  destruct (RegExp_test re text'); [|auto].
  apply terminates_bind in Ht as [Ht1 Ht2].
  rewrite (matchLoop_mono _ _ _ _ _ Hc fuel1 fuel2) by (done || lia).
  destruct (loop _ re _ _ fuel1 [] text') as [[nodes t]| |]; [|done|done].
  specialize (Ht2 _ eq_refl). cbn in *.
  clear Hother. case_bool_decide; [|done]. now apply mergeNodes_mono.
Qed.

(** *** Termination when every match is non-empty *)

Lemma mergeNodes_terminates (create0 : jstring -> nat -> completion (list Node))
    (nodes : list Node) (t : jstring) (i : nat) :
  terminates (create0 t i) -> terminates (mergeNodes create0 nodes t i).
Proof. unfold mergeNodes. now destruct (create0 t i). Qed.

(** One iteration of the loop: the text left after a non-empty match is
    strictly shorter. *)
Lemma matchLoop_progress (re : RegExp) (text : jstring) (index : nat)
    (literal : jstring) :
  nonempty_matches re ->
  String_search text re = Some index ->
  String_match (substring_from text index) re = Some literal ->
  length (substring_from (substring_from text index) (length literal))
    < length text.
Proof.
  intros Hre Hs Hm. rewrite !JSFacts.substring_from_drop in *.
  apply match_exec in Hm as [j Hm]. pose proof (Hre _ _ _ Hm) as Hne.
  apply exec_bounds in Hm as [_ Hm]. rewrite !length_drop in *.
  destruct literal; [done|]. simpl in *. lia.
Qed.

Lemma matchLoop_terminates (create0 : jstring -> nat -> completion (list Node))
    (re : RegExp) (ruleIndex nextRuleIndex bound : nat) :
  nonempty_matches re ->
  (forall t, length t <= bound -> terminates (create0 t nextRuleIndex)) ->
  forall fuel nodes t,
    length t <= fuel -> length t <= bound ->
    terminates (loop create0 re ruleIndex nextRuleIndex fuel nodes t)
    /\ forall nodes' t',
         loop create0 re ruleIndex nextRuleIndex fuel nodes t
           = Normal (nodes', t') ->
         length t' <= length t.
Proof.
  intros Hre Hc. induction fuel as [|fuel IH]; intros nodes t Hfuel Hbound.
  - destruct t; [|simpl in Hfuel; lia]. cbn [matchLoop].
    destruct (String_search [] re) as [index|] eqn:Hs.
    + apply search_exec in Hs as [m Hs]. pose proof (Hre _ _ _ Hs).
      apply exec_bounds in Hs as [_ Hs]. destruct m; [done|].
      simpl in Hs. lia.
    + split; [done|]. now intros ? ? [= <- <-].
  - cbn [matchLoop]. destruct (String_search t re) as [index|] eqn:Hs;
      [|split; [done|now intros ? ? [= <- <-]]].
    cbv zeta. pose proof Hs as Hs'. apply search_exec in Hs' as [m Hs'].
    apply exec_bounds in Hs' as [Hindex _].
    assert (terminates
              (if bool_decide (substring t 0 index <> [])
               then mergeNodes create0 nodes (substring t 0 index)
                      nextRuleIndex
               else mret nodes)) as Hprev.
    { case_bool_decide; [|done]. apply mergeNodes_terminates, Hc.
      rewrite JSFacts.substring_0, length_take. lia. }
    destruct (if bool_decide (substring t 0 index <> []) then _ else _)
      as [nodes1| |]; [|done|done].
    cbn. destruct (String_match (substring_from t index) re)
      as [literal|] eqn:Hm; [|done].
    pose proof (matchLoop_progress re t index literal Hre Hs Hm) as Hlt.
    edestruct (IH (nodes1 ++ [widget_create schema (widgetId ruleIndex)
                     (schema_text schema
                        (createWidgetContent (widgetId ruleIndex) literal))])
                  (substring_from (substring_from t index) (length literal)))
      as [Ht Hlen]; [lia|lia|].
    split; [done|]. intros nodes' t' Heq. apply Hlen in Heq. lia.
Qed.

Lemma createNodesWithWidget_enough_fuel :
  (forall r, r ∈ widgetRules st -> nonempty_matches (rule r)) ->
  forall fuel text ruleIndex,
    length text + (length (widgetRules st) - ruleIndex) + 2 <= fuel ->
    terminates (create fuel text ruleIndex).
Proof.
  intros Hrules. induction fuel as [|fuel IH]; intros text ruleIndex Hfuel;
    [lia|].
  cbn [createNodesWithWidget]. cbv zeta.
  pose proof (sublist_length _ _ (unwrapWidgetSyntax_sublist text)) as Hlen.
  set (text' := unwrapWidgetSyntax text) in *.
  assert (terminates
            (if bool_decide (text' <> []) then
               if bool_decide (ruleIndex + 1 < length (widgetRules st))
               then mergeNodes (create fuel) [] text' (ruleIndex + 1)
               else mret [schema_text schema text']
             else mret [])) as Hother.
  { repeat case_bool_decide; try done.
    apply mergeNodes_terminates, IH. lia. }
  destruct (widgetRules st !! ruleIndex) as [r|] eqn:Hr; [|done].
  cbn. destruct (RegExp_test (rule r) text'); [|done].
  pose proof (lookup_lt_Some _ _ _ Hr) as Hlt.
  assert (forall t, length t <= length text' ->
                    terminates (create fuel t (ruleIndex + 1))) as Hc
    by (intros t Ht; apply IH; lia).
  destruct (matchLoop_terminates (create fuel) (rule r) ruleIndex
              (ruleIndex + 1) (length text')
              (Hrules r (list_elem_of_lookup_2 _ _ _ Hr)) Hc
              fuel [] text') as [Ht Hleft]; [lia|lia|].
  apply terminates_bind. split; [done|].
  intros [nodes t] Heq. apply Hleft in Heq. clear Hother.
  case_bool_decide; [|done]. now apply mergeNodes_terminates, Hc.
Qed.

End SegmentationFacts.

(** Patterns that begin with a single-character atom match no empty
    span. *)
Lemma compile_One_nonempty (a : N -> bool) (p : list item) :
  nonempty_matches (compile (One a :: p)).
Proof.
  intros s i m H. apply JSFacts.exec_compile_Some in H as (_ & H & _).
  destruct H as (n & Hn & ->).
  pose proof (JSFacts.matchSeq_le _ _ _ Hn).
  apply JSFacts.matchSeq_One_pos in Hn.
  intros E. apply (f_equal length) in E. rewrite length_take in E.
  simpl in E. lia.
Qed.

(** C4.  With the rules [/\$\S+/] and [/#\S+/] registered in that order,
    [createNodesWithWidget("$test plain text #test", schema, 0)] returns
    three nodes: the widget of rule 0 for [$test], the text
    [ plain text ] and the widget of rule 1 for [#test]. *)
Theorem createNodesWithWidget_example {DOM Node : Type}
    (schema : Schema Node) (toDOM0 toDOM1 : jstring -> DOM)
    (map : gmap jstring (WidgetRule DOM)) (fuel : nat) :
  3 <= fuel ->
  createNodesWithWidget
    (mkRegistry [mkWidgetRule dollarRule toDOM0; mkWidgetRule hashRule toDOM1]
       map)
    schema fuel (str "$test plain text #test") 0
  = Normal
      [widget_create schema (str "widget0")
         (schema_text schema
            (createWidgetContent (str "widget0") (str "$test")));
       schema_text schema (str " plain text ");
       widget_create schema (str "widget1")
         (schema_text schema
            (createWidgetContent (str "widget1") (str "#test")))].
Proof.
  intros Hfuel.
  rewrite (createNodesWithWidget_mono _ _ 3 fuel);
    [vm_compute; reflexivity | exact Hfuel | vm_compute; discriminate].
Qed.

Lemma createNodesWithWidget_example_witness :
  3 <= 5
  /\ createNodesWithWidget
       (setWidgetRules
          [mkWidgetRule dollarRule id; mkWidgetRule hashRule id] initial)
       pmSchema 5 (str "$test plain text #test") 0
     = Normal
         [WidgetNode (str "widget0") (TextNode (str "$$widget0 $test$$"));
          TextNode (str " plain text ");
          WidgetNode (str "widget1") (TextNode (str "$$widget1 #test$$"))].
Proof.
  split; [lia|].
  apply (createNodesWithWidget_example pmSchema id id); lia.
Defined.

(** C7, as amended.  When every match of every registered rule spans at
    least one code unit, [createNodesWithWidget] terminates on every text
    and from every rule index, and each iteration of its loop leaves a
    strictly shorter text. *)
Theorem createNodesWithWidget_terminates {DOM Node : Type}
    (st : Registry DOM) (schema : Schema Node) :
  (forall r, r ∈ widgetRules st -> nonempty_matches (rule r)) ->
  (forall text ruleIndex fuel,
      length text + (length (widgetRules st) - ruleIndex) + 2 <= fuel ->
      terminates (createNodesWithWidget st schema fuel text ruleIndex))
  /\ (forall r text index literal,
        r ∈ widgetRules st ->
        String_search text (rule r) = Some index ->
        String_match (substring_from text index) (rule r) = Some literal ->
        length (substring_from (substring_from text index) (length literal))
          < length text).
Proof.
  intros Hrules. split.
  - intros text ruleIndex fuel. now apply createNodesWithWidget_enough_fuel.
  - intros r text index literal Hr. apply matchLoop_progress. auto.
Qed.

Lemma createNodesWithWidget_terminates_witness :
  let st := setWidgetRules
              [mkWidgetRule dollarRule id; mkWidgetRule hashRule id]
              initial in
  (forall r, r ∈ widgetRules st -> nonempty_matches (rule r))
  /\ terminates
       (createNodesWithWidget st pmSchema 26 (str "$test plain text #test") 0).
Proof.
  intros st.
  assert (forall r, r ∈ widgetRules st -> nonempty_matches (rule r)) as H.
  { intros r Hr. simpl in Hr. rewrite !elem_of_cons, elem_of_nil in Hr.
    destruct Hr as [->|[->|[]]]; apply compile_One_nonempty. }
  split; [exact H|].
  apply (proj1 (createNodesWithWidget_terminates st pmSchema H)).
  simpl. lia.
Defined.

(** C7, counterexample.  [/\s*/] matches the empty span at index 0 of
    [ab]: the loop appends a widget node for the empty literal and leaves
    the text as it was, so no amount of fuel lets the call return. *)
Lemma createNodesWithWidget_empty_match_diverges :
  let re := compile [Star isSpace] in
  let st := setWidgetRules [mkWidgetRule re id] initial in
  RegExpBuiltinExec re (str "ab") = Some (0, [])
  /\ ~ exists fuel,
         terminates (createNodesWithWidget st pmSchema fuel (str "ab") 0).
Proof.
  intros re st. split; [reflexivity|].
  assert (forall fuel create0 nodes,
             matchLoop pmSchema create0 re 0 1 fuel nodes (str "ab")
             = OutOfFuel) as Hloop.
  { induction fuel as [|fuel IH]; intros create0 nodes; [reflexivity|].
    change (matchLoop pmSchema create0 re 0 1 (S fuel) nodes (str "ab"))
      with (matchLoop pmSchema create0 re 0 1 fuel
              (nodes ++ [WidgetNode (widgetId 0)
                           (TextNode (createWidgetContent (widgetId 0) []))])
              (str "ab")).
    apply IH. }
  intros [fuel H]. apply H. destruct fuel as [|fuel]; [reflexivity|].
  cbn [createNodesWithWidget]. cbv zeta.
  rewrite (unwrapWidgetSyntax_no_marker (str "ab")) by reflexivity.
  change (rule <$> widgetRules st !! 0) with (Some re).
  change (RegExp_test re (str "ab")) with true. cbv iota.
  now rewrite Hloop.
Qed.

(** ** The widget content extractor *)

Section ExtractorFacts.
Variable isContainer : MdNode -> bool.
Variable getInlineMarkdownText : MdNode -> jstring.
Variable widgetNode : MdNode.

Local Abbreviation next := (next isContainer).
Local Abbreviation walk := (walk isContainer getInlineMarkdownText).

Lemma nodeAt_child (i : nat) :
  nodeAt widgetNode [i] = children widgetNode !! i.
Proof.
  unfold nodeAt. simpl. now destruct (children widgetNode !! i).
Qed.

(** Entering the widget node, a container with children, moves the
    cursor to its first child. *)
Lemma next_enter_root :
  isContainer widgetNode = true -> children widgetNode <> [] ->
  next (walker widgetNode)
  = (Some (mkEvent [] widgetNode true),
     mkNodeWalker widgetNode (Some [0]) true).
Proof.
  intros Hc Hne. unfold Widget.next, walker. cbn. rewrite Hc.
  now destruct (children widgetNode).
Qed.

(** Entering a leaf child that has a next sibling moves to the sibling. *)
Lemma next_enter_leaf (i : nat) (c : MdNode) :
  children widgetNode !! i = Some c -> isContainer c = false ->
  is_Some (children widgetNode !! S i) ->
  next (mkNodeWalker widgetNode (Some [i]) true)
  = (Some (mkEvent [i] c true), mkNodeWalker widgetNode (Some [S i]) true).
Proof.
  intros Hi Hc [c' Hi']. unfold Widget.next. cbn [current root].
  rewrite !nodeAt_child, Hi, Hi'. cbn. now rewrite Hc.
Qed.

(** Entering any child yields its entering event; the walker stays on the
    same tree. *)
Lemma next_enter_child (i : nat) (c : MdNode) :
  children widgetNode !! i = Some c ->
  exists w, next (mkNodeWalker widgetNode (Some [i]) true)
            = (Some (mkEvent [i] c true), w)
            /\ root w = widgetNode.
Proof.
  intros Hi. unfold Widget.next. cbn [current root cursor_entering].
  rewrite nodeAt_child, Hi. eexists. split; [reflexivity|].
  destruct (true && isContainer c); [now destruct (children c)|].
  now destruct (nodeAt widgetNode [S i]).
Qed.

(** At the exit of the widget node the traversal is over. *)
Lemma next_exit_root :
  next (mkNodeWalker widgetNode (Some []) false)
  = (Some (mkEvent [] widgetNode false), mkNodeWalker widgetNode None false).
Proof. reflexivity. Qed.

Lemma next_exhausted (e : bool) :
  fst (next (mkNodeWalker widgetNode None e)) = None.
Proof. reflexivity. Qed.

(** From the cursor on a child, with only text leaves before the first
    child [n] that is not a text node: the literals of the text leaves are
    appended, then the inline text of [n], and the walk ends. *)
Lemma walk_children (n : MdNode) (rest : list MdNode) :
  type n <> str "text" ->
  forall (ts pre : list MdNode) (acc : jstring) (fuel : nat),
    children widgetNode = pre ++ ts ++ n :: rest ->
    Forall (fun t => type t = str "text" /\ isContainer t = false) ts ->
    length ts + 2 <= fuel ->
    walk fuel (mkNodeWalker widgetNode (Some [length pre]) true) acc
    = Normal (acc ++ concat (map literal ts) ++ getInlineMarkdownText n).
Proof.
  intros Hn. induction ts as [|t ts IH]; intros pre acc fuel Hcs Hts Hfuel.
  - destruct fuel as [|[|fuel]]; [simpl in Hfuel; lia..|].
    assert (children widgetNode !! length pre = Some n) as Hi
      by (rewrite Hcs; apply list_lookup_middle; done).
    destruct (next_enter_child _ _ Hi) as (w & Hw & Hroot).
    cbn [Widget.walk]. rewrite Hw.
    rewrite (bool_decide_eq_true_2 ([length pre] <> [])) by done.
    rewrite (bool_decide_eq_true_2 (type n <> str "text")) by done.
    cbn [andb]. unfold resumeAt. rewrite Hroot, next_exit_root. cbn [snd].
    destruct (Widget.next isContainer (mkNodeWalker widgetNode None false))
      as [[ev|] w'] eqn:E; [|done].
    pose proof (next_exhausted false) as Hx. rewrite E in Hx. done.
  - destruct fuel as [|fuel]; [simpl in Hfuel; lia|].
    apply Forall_cons in Hts as [[Ht Hleaf] Hts].
    assert (children widgetNode !! length pre = Some t) as Hi
      by (rewrite Hcs; apply list_lookup_middle; done).
    assert (is_Some (children widgetNode !! S (length pre))) as Hnext.
    { apply lookup_lt_is_Some. rewrite Hcs, !length_app. simpl. lia. }
    cbn [Widget.walk]. rewrite (next_enter_leaf _ _ Hi Hleaf Hnext).
    rewrite (bool_decide_eq_false_2 (type t <> str "text")) by tauto.
    rewrite andb_false_r.
    rewrite (bool_decide_eq_true_2 (type t = str "text")) by done.
    replace (S (length pre)) with (length (pre ++ [t]))
      by (rewrite length_app; simpl; lia).
    rewrite (IH (pre ++ [t]) (acc ++ literal t) fuel).
    + simpl. now rewrite <- !app_assoc.
    + now rewrite Hcs, <- app_assoc.
    + done.
    + simpl in Hfuel. lia.
Qed.

End ExtractorFacts.

(** C9.  When the children of the widget node are text leaves [ts]
    followed by a node [n] that is not a text node, [getWidgetContent]
    returns the literals of [ts] followed by the inline text of [n]: after
    [n] the walker is put at the exit of the widget node, and the siblings
    [rest] after [n] contribute nothing, whatever they are. *)
Theorem getWidgetContent_stops_at_non_text
    (isContainer : MdNode -> bool) (getInlineMarkdownText : MdNode -> jstring)
    (type_ literal_ : jstring) (ts : list MdNode) (n : MdNode)
    (rest : list MdNode) (fuel : nat) :
  let widgetNode := mkMdNode type_ literal_ (ts ++ n :: rest) in
  isContainer widgetNode = true ->
  type_ <> str "text" ->
  Forall (fun t => type t = str "text" /\ isContainer t = false) ts ->
  type n <> str "text" ->
  length ts + 3 <= fuel ->
  getWidgetContent isContainer getInlineMarkdownText fuel widgetNode
  = Normal (concat (map literal ts) ++ getInlineMarkdownText n).
Proof.
  intros widgetNode Hc Ht Hts Hn Hfuel.
  destruct fuel as [|fuel]; [lia|].
  unfold getWidgetContent. cbn [walk].
  rewrite next_enter_root
    by (done || (simpl; intros E; destruct ts; discriminate E)).
  rewrite (bool_decide_eq_false_2 (@nil nat <> [])) by tauto.
  cbn [andb]. rewrite (bool_decide_eq_false_2 (type widgetNode = str "text"))
    by done.
  apply (walk_children isContainer getInlineMarkdownText widgetNode n rest
           Hn ts [] [] fuel); [done|done|lia].
Qed.

Lemma getWidgetContent_stops_at_non_text_witness :
  let isContainer := fun n => negb (bool_decide (type n = str "text")) in
  let getInlineMarkdownText :=
    fun n => str "*" ++ concat (map literal (children n)) ++ str "*" in
  let foo := mkMdNode (str "text") (str "foo") [] in
  let bar := mkMdNode (str "emph") [] [mkMdNode (str "text") (str "bar") []] in
  let baz := mkMdNode (str "text") (str "baz") [] in
  getWidgetContent isContainer getInlineMarkdownText 4
    (mkMdNode (str "customInline") [] ([foo] ++ bar :: [baz]))
  = Normal (str "foo*bar*").
Proof.
  intros isContainer getInlineMarkdownText foo bar baz.
  apply (getWidgetContent_stops_at_non_text isContainer getInlineMarkdownText
           (str "customInline") [] [foo] bar [baz] 4).
  - reflexivity.
  - discriminate.
  - repeat constructor.
  - discriminate.
  - simpl. lia.
Defined.

(** ** Further properties of the registry *)

Section RegistryMore.
Context {DOM : Type}.
Implicit Types (st : Registry DOM) (rules : list (WidgetRule DOM)).

(** A key that is not the id of an assigned index keeps its entry. *)
Lemma forEach_assign_lookup_other rules :
  forall (k : nat) (m : gmap jstring (WidgetRule DOM)) (key : jstring),
    (forall j, k <= j < k + length rules -> key <> widgetId j) ->
    forEach_assign rules k m !! key = m !! key.
Proof.
  induction rules as [|r rules IH]; intros k m key Hkey; [done|].
  cbn [forEach_assign]. rewrite IH.
  - apply lookup_insert_ne. intros E. apply (Hkey k); [simpl; lia|done].
  - intros j Hj. apply Hkey. simpl. lia.
Qed.

(** The keys written by [setWidgetRules(rules)] can be told apart. *)
Lemma assigned_key_dec rules (key : jstring) :
  (exists j, j < length rules /\ key = widgetId j)
  \/ (forall j, j < length rules -> key <> widgetId j).
Proof.
  destruct (decide (key ∈ widgetId <$> seq 0 (length rules))) as [Hin|Hout].
  - left. apply list_elem_of_fmap in Hin as (j & -> & Hj).
    apply elem_of_seq in Hj. exists j. split; [lia|done].
  - right. intros j Hj ->. apply Hout, list_elem_of_fmap.
    exists j. split; [done|]. apply elem_of_seq. lia.
Qed.

(** X1.  After [setWidgetRules(rules)], from any earlier state,
    [getWidgetRules()] returns [rules], and for every index [i] of the
    list [widgetToDOM("widget<i>", text)] dispatches to [rules[i]]: its
    conversion function receives the first match of its pattern in the
    decoded text, or [text] itself when there is none. *)
Theorem setWidgetRules_consistent st rules :
  getWidgetRules (setWidgetRules rules st) = rules
  /\ forall i r text,
       rules !! i = Some r ->
       widgetToDOM (setWidgetRules rules st) (widgetId i) text =
       Normal (toDOM r
                 match String_match (unwrapWidgetSyntax text) (rule r) with
                 | Some m => m
                 | None => text
                 end).
Proof.
  split; [done|]. intros i r text Hr.
  apply widgetToDOM_registered. rewrite setWidgetRules_lookup.
  pose proof (lookup_lt_Some _ _ _ Hr). now case_decide.
Qed.

(** X2.  On a module where [setWidgetRules(rules)] was the first
    registration, [widgetToDOM] throws for every id that is not
    [widget<i>] for an index [i] of [rules]; so it throws for every id
    when [rules] is empty.  (An id that the object inherits from its
    prototype, such as [toString], yields no [toDOM] function, and the
    call throws as well.) *)
Theorem widgetToDOM_unregistered rules (info text : jstring) :
  (forall i, i < length rules -> info <> widgetId i) ->
  widgetToDOM (setWidgetRules rules initial) info text = Throw.
Proof.
  intros Hinfo. unfold widgetToDOM, setWidgetRules, initial.
  cbn [widgetRuleMap].
  rewrite forEach_assign_lookup_other by (intros j Hj; apply Hinfo; lia).
  now rewrite lookup_empty.
Qed.

(** X3.  A registration with a list at least as long as the previous one
    overrides it entirely: the state is the one the new list alone gives.
    In particular registering the same list twice changes nothing. *)
Theorem setWidgetRules_overrides st (rs1 rs2 : list (WidgetRule DOM)) :
  length rs1 <= length rs2 ->
  setWidgetRules rs2 (setWidgetRules rs1 st) = setWidgetRules rs2 st.
Proof.
  intros Hlen. unfold setWidgetRules. cbn [widgetRuleMap]. f_equal.
  apply map_eq. intros key.
  destruct (assigned_key_dec rs2 key) as [(j & Hj & ->)|Hout].
  - rewrite !forEach_assign_lookup. repeat case_decide; try lia; done.
  - rewrite !forEach_assign_lookup_other; try done.
    + intros j Hj. apply Hout. lia.
    + intros j Hj. apply Hout. lia.
    + intros j Hj. apply Hout. lia.
Qed.

End RegistryMore.

Lemma setWidgetRules_consistent_witness :
  let r0 := mkWidgetRule dollarRule (fun text => str "first:" ++ text) in
  let r1 := mkWidgetRule hashRule (fun text => str "second:" ++ text) in
  widgetToDOM (setWidgetRules [r0; r1] initial) (widgetId 1)
    (str "$$widget1 #tag$$")
  = Normal (str "second:#tag").
Proof.
  intros r0 r1.
  apply (proj2 (setWidgetRules_consistent initial [r0; r1]) 1 r1
           (str "$$widget1 #tag$$")).
  reflexivity.
Defined.

Lemma widgetToDOM_unregistered_witness :
  let r0 := mkWidgetRule dollarRule (fun text => str "first:" ++ text) in
  widgetToDOM (setWidgetRules [r0] initial) (str "widget1") (str "#tag")
  = Throw.
Proof.
  intros r0. apply (widgetToDOM_unregistered [r0]).
  intros i Hi E. destruct i as [|i]; [|simpl in Hi; lia].
  vm_compute in E. discriminate E.
Defined.

Lemma setWidgetRules_overrides_witness :
  let r0 := mkWidgetRule dollarRule (fun text => str "first:" ++ text) in
  let r1 := mkWidgetRule hashRule (fun text => str "second:" ++ text) in
  setWidgetRules [r1; r0] (setWidgetRules [r0] initial)
  = setWidgetRules [r1; r0] initial.
Proof.
  intros r0 r1. apply (setWidgetRules_overrides initial [r0] [r1; r0]).
  simpl. lia.
Defined.

(** ** Further properties of the delimiter codec *)

Section CodecMore.

Lemma includes_cons (c : N) (s p : jstring) :
  includes (c :: s) p = startsWith (c :: s) p || includes s p.
Proof.
  unfold includes. cbn [indexOf].
  destruct (startsWith (c :: s) p); cbn [orb].
  - apply bool_decide_eq_true_2. eauto.
  - apply bool_decide_ext. now rewrite fmap_is_Some.
Qed.

(** A part of a text without the pattern is without the pattern. *)
Lemma includes_false_part (s a b c p : jstring) :
  includes s p = false -> s = a ++ b ++ c -> includes b p = false.
Proof.
  intros Hs ->. destruct (includes b p) eqn:Hb; [|done].
  apply includes_spec in Hb as (l1 & l2 & ->).
  rewrite <- Hs. symmetry. apply includes_spec.
  exists (a ++ l1), (l2 ++ c). now rewrite <- !app_assoc.
Qed.

Lemma includes_char (s : jstring) (x : N) :
  includes s [x] = false -> Forall (fun c => c <> x) s.
Proof.
  induction s as [|c s IH]; intros H; [constructor|].
  pose proof (includes_false_startsWith _ _ H) as Hc.
  constructor; [|eapply IH, includes_false_tail, H].
  intros ->. simpl in Hc. now rewrite N.eqb_refl in Hc.
Qed.

Lemma matchSeq_marker_not_dollar (c : N) (rest : jstring) :
  c <> 36%N -> matchSeq markerItems (c :: rest) = None.
Proof.
  intros Hc. destruct (matchSeq markerItems (c :: rest)) as [n|] eqn:E;
    [|done].
  apply matchSeq_marker_delimiter in E.
  change (str "$$") with [36%N; 36%N] in E. cbn [startsWith] in E.
  apply andb_true_iff in E as [E _]. apply N.eqb_eq in E. congruence.
Qed.

Lemma matchSeq_marker_plain (pre s : jstring) (k : nat) :
  Forall (fun c => c <> 36%N) pre -> k < length pre ->
  matchSeq markerItems (drop k (pre ++ s)) = None.
Proof.
  intros Hpre Hk. rewrite drop_app_le by lia.
  destruct (drop k pre) as [|c rest] eqn:E.
  - apply (f_equal length) in E. rewrite length_drop in E. simpl in E. lia.
  - apply matchSeq_marker_not_dollar.
    assert (c ∈ pre) as Hin.
    { apply (list_elem_of_lookup_2 _ k). rewrite <- (Nat.add_0_r k).
      rewrite <- lookup_drop, E. done. }
    rewrite Forall_forall in Hpre. now apply Hpre.
Qed.

(** In front of a text, a piece without dollar signs only shifts the
    first marker. *)
Lemma exec_app_plain (pre s : jstring) :
  Forall (fun c => c <> 36%N) pre ->
  RegExpBuiltinExec reWidgetPrefix (pre ++ s) =
  match RegExpBuiltinExec reWidgetPrefix s with
  | Some (i, m) => Some (length pre + i, m)
  | None => None
  end.
Proof.
  intros Hpre. unfold reWidgetPrefix.
  destruct (RegExpBuiltinExec (compile markerItems) s) as [[i m]|] eqn:E.
  - apply JSFacts.exec_compile_Some in E as (Hi & (n & Hn & ->) & Hk).
    apply JSFacts.exec_compile_Some. rewrite length_app, drop_app_add.
    split; [lia|]. split; [eauto|].
    intros k Hlt. destruct (decide (k < length pre)) as [Hin|Hout].
    + now apply matchSeq_marker_plain.
    + replace k with (length pre + (k - length pre)) by lia.
      rewrite drop_app_add. apply Hk. lia.
  - apply JSFacts.exec_compile_None. intros k Hle.
    destruct (decide (k < length pre)) as [Hin|Hout].
    + now apply matchSeq_marker_plain.
    + replace k with (length pre + (k - length pre)) by lia.
      rewrite drop_app_add.
      apply (proj1 (JSFacts.exec_compile_None _ _) E).
      rewrite length_app in Hle. lia.
Qed.

(** X4.  A text in which [$$] does not occur is left as it is by
    [unwrapWidgetSyntax]; so is the empty text. *)
Theorem unwrapWidgetSyntax_plain (text : jstring) :
  includes text (str "$$") = false -> unwrapWidgetSyntax text = text.
Proof.
  intros H. now apply unwrapWidgetSyntax_no_marker, search_marker_absent.
Qed.

Lemma unwrapWidgetSyntax_front (pre s : jstring) :
  Forall (fun c => c <> 36%N) pre ->
  unwrapWidgetSyntax (pre ++ s) = pre ++ unwrapWidgetSyntax s.
Proof.
  intros Hpre.
  rewrite (unwrapWidgetSyntax_eq (pre ++ s)), (unwrapWidgetSyntax_eq s).
  unfold String_search. rewrite (exec_app_plain _ _ Hpre).
  destruct (RegExpBuiltinExec reWidgetPrefix s) as [[i m]|]; [|done].
  cbn [fmap option_fmap option_map fst]. unfold replaced. cbv zeta.
  rewrite !JSFacts.substring_from_drop, !JSFacts.substring_0.
  rewrite drop_app_add, take_app_add. now rewrite <- app_assoc.
Qed.

(** X5.  Text without dollar signs in front of a text is kept as it is:
    the front is copied and the rest is decoded as on its own. *)
Theorem unwrapWidgetSyntax_app_plain (pre s : jstring) :
  includes pre (str "$") = false ->
  unwrapWidgetSyntax (pre ++ s) = pre ++ unwrapWidgetSyntax s.
Proof. intros Hpre. now apply unwrapWidgetSyntax_front, includes_char. Qed.

Lemma String_replace_closing_app (c post : jstring) :
  includes c (str "$$") = false ->
  String_replace (c ++ str "$$" ++ post) (str "$$") [] = c ++ post.
Proof.
  induction c as [|x c IH]; intros H.
  - unfold String_replace. change (str "$$") with [36%N; 36%N].
    now cbn.
  - pose proof (includes_false_startsWith _ _ H) as Hx.
    pose proof (includes_false_tail _ _ _ H) as Hc.
    destruct (startsWith ((x :: c) ++ str "$$" ++ post) (str "$$")) eqn:E.
    + apply JSFacts.startsWith_spec in E as [t E].
      change (str "$$") with [36%N; 36%N] in *. destruct c as [|y c].
      * injection E as -> _. unfold String_replace. now cbn.
      * injection E as -> -> _.
        assert (startsWith (36%N :: 36%N :: c) [36%N; 36%N] = true) as Ht
          by (apply JSFacts.startsWith_spec; now exists c).
        congruence.
    + cbn [app]. rewrite String_replace_cons by done. f_equal. now apply IH.
Qed.

(** An encoded widget in front of a text: its marker is the first one,
    and the recursive call receives the body followed by the text. *)
Lemma encoded_open (ds body post : jstring) :
  ds <> [] -> forallb isDigit ds = true ->
  includes body (str "$$") = false ->
  let text := (str "$$" ++ (str "widget" ++ ds) ++ str " " ++ body ++ str "$$")
                ++ post in
  String_search text reWidgetPrefix = Some 0
  /\ replaced text 0 = body ++ post.
Proof.
  intros Hne Hds Hb text.
  assert (text = (str "$$widget" ++ ds ++ [32%N]) ++ body ++ str "$$" ++ post)
    as -> by (unfold text; now rewrite <- !app_assoc).
  pose proof (matchSeq_marker ds 32 (body ++ str "$$" ++ post) Hne Hds eq_refl)
    as Hm.
  set (text := (str "$$widget" ++ ds ++ [32%N]) ++ body ++ str "$$" ++ post)
    in *.
  assert (String_search text reWidgetPrefix = Some 0) as Hs.
  { unfold String_search.
    assert (RegExpBuiltinExec reWidgetPrefix text
            = Some (0, take (length (str "$$widget" ++ ds ++ [32%N])) text))
      as ->; [|done].
    apply JSFacts.exec_compile_Some. rewrite drop_0.
    repeat split; [lia|eauto|intros; lia]. }
  split; [done|].
  unfold replaced. cbv zeta. rewrite JSFacts.substring_from_drop.
  destruct (JSFacts.replace_re_compile_rest _ _ _ Hs) as (n & Hn & Hr).
  rewrite drop_0 in Hn, Hr. fold markerItems in Hn. rewrite Hm in Hn.
  injection Hn as <-. fold reWidgetPrefix in Hr. rewrite drop_0, Hr.
  replace (drop _ text) with (body ++ str "$$" ++ post)
    by (symmetry; apply (drop_app_length (str "$$widget" ++ ds ++ [32%N]))).
  now apply String_replace_closing_app.
Qed.

(** The ids that the module makes are [widget] followed by digits. *)
Lemma digits_of_uint (d : Decimal.uint) :
  forallb isDigit (str (NilEmpty.string_of_uint d)) = true.
Proof. induction d; cbn; auto. Qed.

Lemma Number_toString_digits (i : nat) :
  Number_toString i <> [] /\ forallb isDigit (Number_toString i) = true.
Proof.
  unfold Number_toString. pose proof (to_uint_nonnil i) as Hnil.
  destruct (Nat.to_uint i) eqn:E; try done;
    (split; [discriminate|]); apply (digits_of_uint (_ u)).
Qed.

End CodecMore.

Section Escaping.

(** The replacement text of [createWidgetContent] and its expansion, which
    holds no replacement pattern. *)
Local Abbreviation esc := (str "$" ++ [ZWSP] ++ str "$").
Local Abbreviation escapeFrom := (replaceAllFrom (str "$$") esc).

Lemma escapeFrom_pair (before s : jstring) :
  escapeFrom before 0 (36%N :: 36%N :: s)
  = 36%N :: ZWSP :: 36%N :: escapeFrom ((before ++ [36%N]) ++ [36%N]) 0 s.
Proof. reflexivity. Qed.

Lemma escapeFrom_other (before : jstring) (c : N) (s : jstring) :
  startsWith (c :: s) (str "$$") = false ->
  escapeFrom before 0 (c :: s) = c :: escapeFrom (before ++ [c]) 0 s.
Proof. intros H. cbn [replaceAllFrom]. now rewrite H. Qed.

Lemma startsWith_pair (s : jstring) :
  startsWith s (str "$$") = true -> exists s', s = 36%N :: 36%N :: s'.
Proof. intros H. apply JSFacts.startsWith_spec in H as [t ->]. eauto. Qed.

Lemma startsWith_one (c : N) (t : jstring) :
  startsWith (c :: t) (str "$") = (36 =? c)%N.
Proof. change (str "$") with [36%N]. cbn. apply andb_true_r. Qed.

Lemma startsWith_two (c : N) (t : jstring) :
  startsWith (c :: t) (str "$$") = (36 =? c)%N && startsWith t (str "$").
Proof. reflexivity. Qed.

Lemma startsWith_three (c : N) (t : jstring) :
  startsWith (c :: t) (str "$$$") = (36 =? c)%N && startsWith t (str "$$").
Proof. reflexivity. Qed.

(** Escaping only inserts zero-width spaces. *)
Lemma escapeFrom_filter (n : nat) :
  forall s before, length s <= n ->
    filter (fun c => c <> ZWSP) (escapeFrom before 0 s)
    = filter (fun c => c <> ZWSP) s.
Proof.
  induction n as [|n IH]; intros s before Hlen.
  - destruct s; [done|simpl in Hlen; lia].
  - destruct s as [|c s]; [done|].
    destruct (startsWith (c :: s) (str "$$")) eqn:E.
    + apply startsWith_pair in E as [s' [= -> ->]].
      rewrite escapeFrom_pair.
      assert (forall l, filter (fun c => c <> ZWSP)
                          (36%N :: ZWSP :: 36%N :: l)
                        = 36%N :: 36%N :: filter (fun c => c <> ZWSP) l)
        as -> by reflexivity.
      assert (forall l, filter (fun c => c <> ZWSP) (36%N :: 36%N :: l)
                        = 36%N :: 36%N :: filter (fun c => c <> ZWSP) l)
        as -> by reflexivity.
      rewrite IH by (simpl in Hlen; lia). reflexivity.
    + rewrite escapeFrom_other by done.
      rewrite !(filter_cons _ c), IH by (simpl in Hlen; lia). done.
Qed.

(** Without three dollar signs in a row in the content, no [$$] is left
    in the escaped content, which starts with a dollar sign only when the
    content does. *)
Lemma escapeFrom_no_delimiter (n : nat) :
  forall s before, length s <= n ->
    includes s (str "$$$") = false ->
    includes (escapeFrom before 0 s) (str "$$") = false
    /\ startsWith (escapeFrom before 0 s) (str "$") = startsWith s (str "$").
Proof.
  induction n as [|n IH]; intros s before Hlen Hs.
  - destruct s; [done|simpl in Hlen; lia].
  - destruct s as [|c s]; [done|].
    destruct (startsWith (c :: s) (str "$$")) eqn:E.
    + apply startsWith_pair in E as [s' [= -> ->]].
      rewrite escapeFrom_pair.
      pose proof (includes_false_startsWith _ _ Hs) as Hhead.
      apply includes_false_tail, includes_false_tail in Hs.
      destruct (IH s' ((before ++ [36%N]) ++ [36%N])) as [Hin Hst];
        [simpl in Hlen; lia|done|].
      split; [|reflexivity].
      rewrite startsWith_three, startsWith_two, !N.eqb_refl in Hhead.
      cbn [andb] in Hhead.
      rewrite !includes_cons, Hin, !startsWith_two, startsWith_one, Hst, Hhead.
      rewrite N.eqb_refl. reflexivity.
    + rewrite escapeFrom_other by done.
      destruct (IH s (before ++ [c])) as [Hin Hst];
        [simpl in Hlen; lia|eapply includes_false_tail, Hs|].
      split; [|reflexivity].
      rewrite includes_cons, Hin, orb_false_r, startsWith_two, Hst.
      now rewrite startsWith_two in E.
Qed.

End Escaping.

Section CodecRoundTrips.

(** X6.  Escaping only inserts zero-width spaces: with the code unit
    U+200B dropped, the result of [createWidgetContent] is the id and the
    content, each with U+200B dropped, between the delimiters. *)
Theorem createWidgetContent_inserts_ZWSP_only (info content : jstring) :
  filter (fun c => c <> ZWSP) (createWidgetContent info content)
  = str "$$" ++ filter (fun c => c <> ZWSP) info ++ str " "
      ++ filter (fun c => c <> ZWSP) content ++ str "$$".
Proof.
  unfold createWidgetContent, String_replaceAll. cbv zeta.
  pose proof (escapeFrom_filter (length content) content [] (le_n _)) as H.
  unfold jstring in *. rewrite !filter_app, H. reflexivity.
Qed.

(** X7.  For a content without three dollar signs in a row, the escaped
    content holds no [$$], and decoding the encoded content gives the
    escaped content: the content with a zero-width space between the
    dollar signs of each pair. *)
Theorem unwrap_createWidgetContent_escaped (i : nat) (content : jstring) :
  includes content (str "$$$") = false ->
  let safeContent :=
    String_replaceAll content (str "$$") (str "$" ++ [ZWSP] ++ str "$") in
  includes safeContent (str "$$") = false
  /\ unwrapWidgetSyntax (createWidgetContent (widgetId i) content)
     = safeContent.
Proof.
  intros Hc safe.
  destruct (escapeFrom_no_delimiter (length content) content []
              (le_n _) Hc) as [Hsafe _].
  fold (String_replaceAll content (str "$$") (str "$" ++ [ZWSP] ++ str "$"))
    in Hsafe. fold safe in Hsafe.
  split; [done|].
  destruct (Number_toString_digits i) as [Hne Hds].
  destruct (encoded_open (Number_toString i) safe [] Hne Hds Hsafe)
    as [Hs Hr].
  rewrite app_nil_r in Hs. rewrite !app_nil_r in Hr.
  change (createWidgetContent (widgetId i) content)
    with (str "$$" ++ (str "widget" ++ Number_toString i) ++ str " "
            ++ safe ++ str "$$").
  rewrite unwrapWidgetSyntax_eq, Hs, Hr, JSFacts.substring_0, take_0.
  now apply unwrapWidgetSyntax_no_marker, search_marker_absent.
Qed.

(** X8.  An encoded widget between texts: with no dollar sign in the text
    in front and no [$$] in the content, decoding copies the text in
    front, drops the marker and the closing delimiter of the widget, and
    goes on with the content followed by the text behind. *)
Theorem unwrapWidgetSyntax_encoded_between (front content behind : jstring)
    (i : nat) :
  includes front (str "$") = false ->
  includes content (str "$$") = false ->
  unwrapWidgetSyntax
    (front ++ createWidgetContent (widgetId i) content ++ behind)
  = front ++ unwrapWidgetSyntax (content ++ behind).
Proof.
  intros Hf Hc.
  rewrite unwrapWidgetSyntax_front by now apply includes_char.
  f_equal.
  destruct (Number_toString_digits i) as [Hne Hds].
  destruct (encoded_open (Number_toString i) content behind Hne Hds Hc)
    as [Hs Hr].
  unfold createWidgetContent, String_replaceAll. cbv zeta.
  rewrite replaceAllFrom_absent by done. unfold widgetId.
  now rewrite unwrapWidgetSyntax_eq, Hs, Hr, JSFacts.substring_0, take_0.
Qed.

(** X9.  What the segmentation stores, the rendering recovers: for a
    registered id and a literal without [$$] that the pattern of the rule
    matches as a whole, [widgetToDOM] applied to the encoded literal hands
    the literal to the conversion function of the rule. *)
Theorem widgetToDOM_createWidgetContent {DOM : Type} (st : Registry DOM)
    (i : nat) (r : WidgetRule DOM) (literal : jstring) :
  widgetRuleMap st !! widgetId i = Some r ->
  includes literal (str "$$") = false ->
  String_match literal (rule r) = Some literal ->
  widgetToDOM st (widgetId i) (createWidgetContent (widgetId i) literal)
  = Normal (toDOM r literal).
Proof.
  intros Hr Hl Hm. rewrite (widgetToDOM_registered _ _ _ _ Hr).
  destruct (Number_toString_digits i) as [Hne Hds].
  destruct (createWidgetContent_open (Number_toString i) literal Hne Hds Hl)
    as [Hs Hrep].
  fold (widgetId i) in Hs, Hrep.
  rewrite (unwrapWidgetSyntax_eq (createWidgetContent _ _)), Hs, Hrep.
  rewrite JSFacts.substring_0, take_0. cbn [app].
  rewrite (unwrapWidgetSyntax_no_marker literal)
    by now apply search_marker_absent.
  now rewrite Hm.
Qed.

End CodecRoundTrips.

Lemma unwrapWidgetSyntax_plain_witness :
  includes (str "a $5 note") (str "$$") = false
  /\ unwrapWidgetSyntax (str "a $5 note") = str "a $5 note".
Proof.
  split; [reflexivity|]. apply unwrapWidgetSyntax_plain. reflexivity.
Defined.

Lemma unwrapWidgetSyntax_app_plain_witness :
  includes (str "see ") (str "$") = false
  /\ unwrapWidgetSyntax (str "see " ++ str "$$widget0 #1$$!")
     = str "see " ++ unwrapWidgetSyntax (str "$$widget0 #1$$!").
Proof.
  split; [reflexivity|]. apply unwrapWidgetSyntax_app_plain. reflexivity.
Defined.

Lemma unwrap_createWidgetContent_escaped_witness :
  includes (str "a$$b$c") (str "$$$") = false
  /\ unwrapWidgetSyntax (createWidgetContent (widgetId 3) (str "a$$b$c"))
     = str "a$" ++ [ZWSP] ++ str "$b$c".
Proof.
  split; [reflexivity|].
  apply (unwrap_createWidgetContent_escaped 3 (str "a$$b$c")). reflexivity.
Defined.

Lemma unwrapWidgetSyntax_encoded_between_witness :
  includes (str "see ") (str "$") = false
  /\ includes (str "#1") (str "$$") = false
  /\ unwrapWidgetSyntax
       (str "see " ++ createWidgetContent (widgetId 0) (str "#1") ++ str "!")
     = str "see " ++ unwrapWidgetSyntax (str "#1" ++ str "!").
Proof.
  split; [reflexivity|]. split; [reflexivity|].
  apply unwrapWidgetSyntax_encoded_between; reflexivity.
Defined.

Lemma widgetToDOM_createWidgetContent_witness :
  let r := mkWidgetRule hashRule (fun text => str "<b>" ++ text) in
  let st := setWidgetRules [r] initial in
  widgetRuleMap st !! widgetId 0 = Some r
  /\ includes (str "#tag") (str "$$") = false
  /\ String_match (str "#tag") (rule r) = Some (str "#tag")
  /\ widgetToDOM st (widgetId 0) (createWidgetContent (widgetId 0) (str "#tag"))
     = Normal (str "<b>#tag").
Proof.
  intros r st. split; [reflexivity|]. split; [reflexivity|].
  split; [reflexivity|].
  apply (widgetToDOM_createWidgetContent st 0 r (str "#tag")); reflexivity.
Defined.

(** ** Further properties of the segmentation engine *)

Section Binds.
Context {A B : Type}.

Lemma bind_Normal_inv (m : completion A) (f : A -> completion B) (b : B) :
  m ≫= f = Normal b -> exists a, m = Normal a /\ f a = Normal b.
Proof. destruct m as [a| |]; [eauto|done|done]. Qed.

End Binds.

Section SegmentationMore.
Context {DOM : Type}.
Variable st : Registry DOM.

Local Abbreviation rules := (widgetRules st).

Section AnySchema.
Context {Node : Type}.
Variable schema : Schema Node.

(** X10.  A decoded text that no rule from [ruleIndex] on matches becomes
    one plain-text node, and no node at all when it is empty; this
    covers a rule index past the last rule and an empty rule list. *)
Theorem createNodesWithWidget_no_match (fuel : nat) :
  forall (text : jstring) (ruleIndex : nat),
    String_search (unwrapWidgetSyntax text) reWidgetPrefix = None ->
    (forall j r, ruleIndex <= j -> rules !! j = Some r ->
                 RegExp_test (rule r) (unwrapWidgetSyntax text) = false) ->
    length rules - ruleIndex + 1 <= fuel ->
    createNodesWithWidget st schema fuel text ruleIndex
    = Normal (if bool_decide (unwrapWidgetSyntax text <> [])
              then [schema_text schema (unwrapWidgetSyntax text)] else []).
Proof.
  induction fuel as [|fuel IH]; intros text ruleIndex Hdec Hno Hfuel; [lia|].
  cbn [createNodesWithWidget]. cbv zeta.
  set (decoded := unwrapWidgetSyntax text) in *.
  assert (unwrapWidgetSyntax decoded = decoded) as Hfix
    by now apply unwrapWidgetSyntax_no_marker.
  assert ((if bool_decide (decoded <> []) then
             if bool_decide (ruleIndex + 1 < length rules)
             then mergeNodes (createNodesWithWidget st schema fuel) []
                    decoded (ruleIndex + 1)
             else mret [schema_text schema decoded]
           else mret [])
          = Normal (if bool_decide (decoded <> [])
                    then [schema_text schema decoded] else [])) as Hother.
  { case_bool_decide as Hne; [|done]. case_bool_decide as Hlt; [|done].
    unfold mergeNodes. rewrite (IH decoded (ruleIndex + 1)), Hfix.
    - now rewrite bool_decide_eq_true_2 by done.
    - now rewrite Hfix.
    - rewrite Hfix. intros j r Hj. apply Hno. lia.
    - lia. }
  destruct (rules !! ruleIndex) as [r|] eqn:Hr; [|exact Hother].
  cbn [fmap option_fmap option_map]. now rewrite (Hno ruleIndex r).
Qed.

End AnySchema.

Local Abbreviation create := (createNodesWithWidget st pmSchema).
Local Abbreviation loop := (matchLoop pmSchema).

Lemma madeFrom_weaken (i j : nat) (n : ProsemirrorNode) :
  i <= j -> madeFrom (length rules) j n -> madeFrom (length rules) i n.
Proof.
  intros Hij. destruct n as [t|info [c|? ?]]; simpl; auto.
  intros (k & l & Hk & ? & ?). exists k, l. split; [lia|done].
Qed.

Lemma mergeNodes_madeFrom
    (create0 : jstring -> nat -> completion (list ProsemirrorNode))
    (i j : nat) (nodes result : list ProsemirrorNode) (t : jstring) :
  i <= j ->
  (forall t ns, create0 t j = Normal ns ->
                Forall (madeFrom (length rules) j) ns) ->
  Forall (madeFrom (length rules) i) nodes ->
  mergeNodes create0 nodes t j = Normal result ->
  Forall (madeFrom (length rules) i) result.
Proof.
  intros Hij Hc Hnodes H. unfold mergeNodes in H.
  apply bind_Normal_inv in H as (ns & Hns & [= <-]).
  apply Forall_app. split; [done|].
  eapply Forall_impl; [exact (Hc _ _ Hns)|].
  intros n. now apply madeFrom_weaken.
Qed.

Lemma matchLoop_madeFrom
    (create0 : jstring -> nat -> completion (list ProsemirrorNode))
    (re : RegExp) (ruleIndex : nat) :
  ruleIndex < length rules ->
  (forall t ns, create0 t (ruleIndex + 1) = Normal ns ->
                Forall (madeFrom (length rules) (ruleIndex + 1)) ns) ->
  forall fuel nodes t nodes' t',
    Forall (madeFrom (length rules) ruleIndex) nodes ->
    loop create0 re ruleIndex (ruleIndex + 1) fuel nodes t
      = Normal (nodes', t') ->
    Forall (madeFrom (length rules) ruleIndex) nodes'.
Proof.
  intros Hlt Hc. induction fuel as [|fuel IH];
    intros nodes t nodes' t' Hnodes H; cbn [matchLoop] in H;
    destruct (String_search t re) as [index|]; try done;
    try (injection H as <- <-; done).
  cbv zeta in H. apply bind_Normal_inv in H as (nodes1 & H1 & H).
  destruct (String_match (substring_from t index) re) as [literal|];
    [|done].
  apply IH in H; [done|]. apply Forall_app. split.
  - case_bool_decide.
    + apply (mergeNodes_madeFrom create0 ruleIndex (ruleIndex + 1)
               nodes nodes1 (substring t 0 index)); [lia|done|done|done].
    + now injection H1 as <-.
  - repeat constructor. simpl. exists ruleIndex, literal.
    split; [lia|done].
Qed.

(** X11.  The nodes that [createNodesWithWidget] returns are well formed:
    no text node is empty (the schema is never asked for an empty text
    node), and every widget node carries the id [widget<i>] of a
    registered rule index [i], not below the starting index, with a
    payload made by [createWidgetContent] for that id. *)
Theorem createNodesWithWidget_madeFrom (fuel : nat) :
  forall text ruleIndex nodes,
    create fuel text ruleIndex = Normal nodes ->
    Forall (madeFrom (length rules) ruleIndex) nodes.
Proof.
  induction fuel as [|fuel IH]; intros text ruleIndex nodes H; [done|].
  cbn [createNodesWithWidget] in H. cbv zeta in H.
  set (text' := unwrapWidgetSyntax text) in *.
  assert (forall result,
             (if bool_decide (text' <> []) then
                if bool_decide (ruleIndex + 1 < length rules)
                then mergeNodes (create fuel) [] text' (ruleIndex + 1)
                else mret [TextNode text']
              else mret []) = Normal result ->
             Forall (madeFrom (length rules) ruleIndex) result) as Hother.
  { intros result Hres. case_bool_decide as Hne.
    - case_bool_decide as Hlt.
      + apply (mergeNodes_madeFrom (create fuel) ruleIndex (ruleIndex + 1)
                 [] result text');
          [lia|intros ? ?; apply IH|constructor|done].
      + injection Hres as <-. repeat constructor. done.
    - injection Hres as <-. constructor. }
  destruct (rules !! ruleIndex) as [r|] eqn:Hr; [|now apply Hother].
  cbn [fmap option_fmap option_map] in H.
  destruct (RegExp_test (rule r) text'); [|now apply Hother].
  apply bind_Normal_inv in H as ([nodes1 t1] & Hloop & H). cbn in H.
  pose proof (lookup_lt_Some _ _ _ Hr) as Hlt.
  pose proof (matchLoop_madeFrom (create fuel) (rule r) ruleIndex Hlt
                (fun t ns => IH t (ruleIndex + 1) ns)
                fuel [] text' nodes1 t1 ltac:(constructor) Hloop) as Hn1.
  clear Hother. case_bool_decide.
  - apply (mergeNodes_madeFrom (create fuel) ruleIndex (ruleIndex + 1)
             nodes1 nodes t1); [lia|intros ? ?; apply IH|done|done].
  - now injection H as <-.
Qed.

End SegmentationMore.

Lemma compile_position_independent (p : list item) :
  position_independent (compile p).
Proof.
  intros s i m H. apply JSFacts.exec_compile_Some in H as (Hi & Hn & _).
  apply JSFacts.exec_compile_Some. rewrite drop_0.
  repeat split; [lia|done|intros; lia].
Qed.

Section Completeness.
Context {DOM : Type}.
Variable st : Registry DOM.

Local Abbreviation rules := (widgetRules st).
Local Abbreviation create := (createNodesWithWidget st pmSchema).
Local Abbreviation loop := (matchLoop pmSchema).
Local Abbreviation flat ns := (concat (map nodeText ns)).

Lemma flat_app (a b : list ProsemirrorNode) : flat (a ++ b) = flat a ++ flat b.
Proof. now rewrite map_app, concat_app. Qed.

(** The payload of a widget node decodes to the literal it was made
    for, when the literal holds no [$$]. *)
Lemma nodeText_widget (i : nat) (literal : jstring) :
  includes literal (str "$$") = false ->
  nodeText (WidgetNode (widgetId i)
              (TextNode (createWidgetContent (widgetId i) literal)))
  = literal.
Proof.
  intros Hl. cbn [nodeText].
  destruct (Number_toString_digits i) as [Hne Hds].
  destruct (createWidgetContent_open (Number_toString i) literal Hne Hds Hl)
    as [Hs Hrep].
  fold (widgetId i) in Hs, Hrep.
  rewrite unwrapWidgetSyntax_eq, Hs, Hrep, JSFacts.substring_0, take_0.
  now apply unwrapWidgetSyntax_no_marker, search_marker_absent.
Qed.

(** A match found by [exec] is the start of the text from its index on. *)
Lemma exec_prefix (re : RegExp) (s : jstring) (i : nat) (m : jstring) :
  RegExpBuiltinExec re s = Some (i, m) ->
  drop i s = m ++ drop (length m) (drop i s).
Proof.
  intros H. apply JSFacts.execFrom_Some in H as (_ & (e & _ & ->) & _).
  rewrite length_take, <- (take_drop (e - i) (drop i s)) at 1.
  f_equal. destruct (decide (e - i <= length (drop i s))).
  - now rewrite Nat.min_l by done.
  - rewrite Nat.min_r by lia. now rewrite !drop_ge by lia.
Qed.

Lemma matchLoop_complete
    (create0 : jstring -> nat -> completion (list ProsemirrorNode))
    (re : RegExp) (ruleIndex nextRuleIndex bound : nat) :
  nonempty_matches re -> position_independent re ->
  (forall t, length t <= bound -> includes t (str "$$") = false ->
             exists ns, create0 t nextRuleIndex = Normal ns /\ flat ns = t) ->
  forall fuel nodes t,
    length t <= fuel -> length t <= bound ->
    includes t (str "$$") = false ->
    exists nodes' t',
      loop create0 re ruleIndex nextRuleIndex fuel nodes t
        = Normal (nodes', t')
      /\ flat nodes' ++ t' = flat nodes ++ t
      /\ length t' <= length t
      /\ includes t' (str "$$") = false.
Proof.
  intros Hne Hpi Hc. induction fuel as [|fuel IH];
    intros nodes t Hfuel Hbound Ht; cbn [matchLoop];
    destruct (String_search t re) as [index|] eqn:Hs;
    try (exists nodes, t; done).
  - apply search_exec in Hs as [m Hs]. pose proof (Hne _ _ _ Hs).
    apply exec_bounds in Hs as [_ Hs]. destruct m; [done|].
    simpl in Hs. lia.
  - cbv zeta. apply search_exec in Hs as [m Hs].
    pose proof (Hne _ _ _ Hs) as Hm. pose proof (exec_prefix _ _ _ _ Hs) as Hpre.
    pose proof (exec_bounds _ _ _ _ Hs) as [Hindex Hlen].
    apply Hpi in Hs. rewrite !JSFacts.substring_from_drop, JSFacts.substring_0.
    unfold String_match. rewrite Hs. cbn [fmap option_fmap option_map snd].
    assert (includes (take index t) (str "$$") = false) as Htake
      by (apply (includes_false_part t [] _ (drop index t) _ Ht);
          now rewrite take_drop).
    assert (includes m (str "$$") = false) as Hlit.
    { apply (includes_false_part t (take index t) _
               (drop (length m) (drop index t)) _ Ht).
      now rewrite <- Hpre, take_drop. }
    assert (includes (drop (length m) (drop index t)) (str "$$") = false)
      as Hrest.
    { apply (includes_false_part t (take index t ++ m) _ [] _ Ht).
      now rewrite app_nil_r, <- app_assoc, <- Hpre, take_drop. }
    assert (length (drop (length m) (drop index t)) < length t) as Hshort.
    { rewrite !length_drop. destruct m; [done|]. simpl in *. lia. }
    assert (forall nodes1,
               flat nodes1 = flat nodes ++ take index t ->
               exists nodes' t',
                 loop create0 re ruleIndex nextRuleIndex fuel
                   (nodes1 ++ [WidgetNode (widgetId ruleIndex)
                      (TextNode
                         (createWidgetContent (widgetId ruleIndex) m))])
                   (drop (length m) (drop index t))
                 = Normal (nodes', t')
                 /\ flat nodes' ++ t' = flat nodes ++ t
                 /\ length t' <= length t
                 /\ includes t' (str "$$") = false) as Hcont.
    { intros nodes1 Hflat.
      edestruct (IH (nodes1 ++ [WidgetNode (widgetId ruleIndex)
                       (TextNode
                          (createWidgetContent (widgetId ruleIndex) m))])
                    (drop (length m) (drop index t)))
        as (nodes' & t' & Hloop & Hfl & Hlen' & Ht'); [lia|lia|done|].
      exists nodes', t'. split; [exact Hloop|]. split; [|split; [lia|done]].
      rewrite Hfl, flat_app, Hflat. cbn [map concat].
      rewrite nodeText_widget by done.
      rewrite app_nil_r, <- !app_assoc. f_equal.
      now rewrite <- Hpre, take_drop. }
    case_bool_decide as Hprev.
    + destruct (Hc (take index t)) as (ns & Hns & Hfl);
        [rewrite length_take; lia|done|].
      unfold mergeNodes. rewrite Hns. cbn [mbind completion_bind].
      cbn [mret completion_ret]. rewrite JSFacts.substring_from_drop.
      apply Hcont. now rewrite flat_app, Hfl.
    + cbn [mbind completion_bind mret completion_ret].
      rewrite JSFacts.substring_from_drop.
      apply Hcont. now rewrite Hprev, app_nil_r.
Qed.

(** X12.  Segmentation loses nothing: when every registered pattern has
    only non-empty matches and looks at the text from the start index on
    only, then for a text without [$$] [createNodesWithWidget] returns
    nodes whose texts, the payloads of the widget nodes decoded, give the
    text back when put together in order. *)
Theorem createNodesWithWidget_complete :
  (forall r, r ∈ rules ->
             nonempty_matches (rule r) /\ position_independent (rule r)) ->
  forall fuel text ruleIndex,
    includes text (str "$$") = false ->
    length text + (length rules - ruleIndex) + 2 <= fuel ->
    exists nodes,
      create fuel text ruleIndex = Normal nodes
      /\ concat (map nodeText nodes) = text.
Proof.
  intros Hrules. induction fuel as [|fuel IH];
    intros text ruleIndex Htext Hfuel; [lia|].
  cbn [createNodesWithWidget]. cbv zeta.
  rewrite (unwrapWidgetSyntax_no_marker text)
    by now apply search_marker_absent.
  assert (exists nodes,
             (if bool_decide (text <> []) then
                if bool_decide (ruleIndex + 1 < length rules)
                then mergeNodes (create fuel) [] text (ruleIndex + 1)
                else mret [TextNode text]
              else mret []) = Normal nodes
             /\ flat nodes = text) as Hother.
  { case_bool_decide as Hne.
    - case_bool_decide as Hlt.
      + destruct (IH text (ruleIndex + 1)) as (ns & Hns & Hfl); [done|lia|].
        exists ns. unfold mergeNodes. now rewrite Hns.
      + exists [TextNode text]. split; [done|]. cbn. apply app_nil_r.
    - exists []. now rewrite Hne. }
  destruct (rules !! ruleIndex) as [r|] eqn:Hr; [|exact Hother].
  cbn [fmap option_fmap option_map].
  destruct (RegExp_test (rule r) text); [|exact Hother].
  pose proof (lookup_lt_Some _ _ _ Hr) as Hlt.
  destruct (Hrules r (list_elem_of_lookup_2 _ _ _ Hr)) as [Hne Hpi].
  assert (forall t, length t <= length text ->
                    includes t (str "$$") = false ->
                    exists ns, create fuel t (ruleIndex + 1) = Normal ns
                               /\ flat ns = t) as Hc
    by (intros t Ht Hin; apply IH; [done|lia]).
  destruct (matchLoop_complete (create fuel) (rule r) ruleIndex
              (ruleIndex + 1) (length text) Hne Hpi Hc fuel [] text)
    as (nodes1 & t1 & -> & Hfl & Hlen & Ht1); [lia|lia|done|].
  cbn [mbind completion_bind]. clear Hother. case_bool_decide as Hleft.
  - destruct (Hc t1 Hlen Ht1) as (ns & Hns & Hflns).
    exists (nodes1 ++ ns). unfold mergeNodes. rewrite Hns.
    split; [done|]. now rewrite flat_app, Hflns.
  - exists nodes1. split; [done|].
    now rewrite Hleft, app_nil_r in Hfl.
Qed.

End Completeness.

Lemma createNodesWithWidget_no_match_witness :
  let st : Registry jstring :=
    setWidgetRules [mkWidgetRule dollarRule id; mkWidgetRule hashRule id]
      initial in
  createNodesWithWidget st pmSchema 3 (str "$$widget0 plain$$ text") 0
  = Normal [TextNode (str "plain text")].
Proof.
  intros st.
  apply (createNodesWithWidget_no_match st pmSchema 3
           (str "$$widget0 plain$$ text") 0).
  - reflexivity.
  - intros j r _ Hr. destruct j as [|[|j]]; [| |discriminate Hr];
      injection Hr as <-; reflexivity.
  - simpl. lia.
Defined.

Lemma createNodesWithWidget_madeFrom_witness :
  let st : Registry jstring :=
    setWidgetRules [mkWidgetRule dollarRule id; mkWidgetRule hashRule id]
      initial in
  Forall (madeFrom (length (widgetRules st)) 0)
    [WidgetNode (str "widget0") (TextNode (str "$$widget0 $test$$"));
     TextNode (str " plain text ");
     WidgetNode (str "widget1") (TextNode (str "$$widget1 #test$$"))].
Proof.
  intros st.
  apply (createNodesWithWidget_madeFrom st 5 (str "$test plain text #test") 0).
  vm_compute. reflexivity.
Defined.

Lemma createNodesWithWidget_complete_witness :
  let st : Registry jstring :=
    setWidgetRules [mkWidgetRule dollarRule id; mkWidgetRule hashRule id]
      initial in
  (forall r, r ∈ widgetRules st ->
             nonempty_matches (rule r) /\ position_independent (rule r))
  /\ includes (str "$test plain text #test") (str "$$") = false
  /\ exists nodes,
       createNodesWithWidget st pmSchema 26 (str "$test plain text #test") 0
         = Normal nodes
       /\ concat (map nodeText nodes) = str "$test plain text #test".
Proof.
  intros st.
  assert (forall r, r ∈ widgetRules st ->
            nonempty_matches (rule r) /\ position_independent (rule r)) as H.
  { intros r Hr. simpl in Hr. rewrite !elem_of_cons, elem_of_nil in Hr.
    destruct Hr as [->|[->|[]]];
      (split; [apply compile_One_nonempty|apply compile_position_independent]). }
  split; [exact H|]. split; [reflexivity|].
  apply (createNodesWithWidget_complete st H 26
           (str "$test plain text #test") 0); [reflexivity|simpl; lia].
Defined.

(** ** Further properties of the widget content extractor *)

Section ExtractorMore.
Variable isContainer : MdNode -> bool.
Variable getInlineMarkdownText : MdNode -> jstring.
Variable widgetNode : MdNode.

Local Abbreviation next := (next isContainer).
Local Abbreviation walk := (walk isContainer getInlineMarkdownText).

(** Entering the last child, a leaf, moves to the exit of the widget
    node. *)
Lemma next_enter_last_leaf (i : nat) (c : MdNode) :
  children widgetNode !! i = Some c -> isContainer c = false ->
  children widgetNode !! S i = None ->
  next (mkNodeWalker widgetNode (Some [i]) true)
  = (Some (mkEvent [i] c true), mkNodeWalker widgetNode (Some []) false).
Proof.
  intros Hi Hc Hi'. unfold Widget.next. cbn [current root].
  rewrite !nodeAt_child, Hi, Hi'. cbn. now rewrite Hc.
Qed.

(** Entering a container without children moves to its own exit. *)
Lemma next_enter_childless_root :
  isContainer widgetNode = true -> children widgetNode = [] ->
  next (walker widgetNode)
  = (Some (mkEvent [] widgetNode true),
     mkNodeWalker widgetNode (Some []) false).
Proof.
  intros Hc Hnil. unfold Widget.next, walker. cbn. now rewrite Hc, Hnil.
Qed.

(** From the exit of the widget node the walk returns what it has. *)
Lemma walk_exit_root (fuel : nat) (acc : jstring) :
  2 <= fuel ->
  walk fuel (mkNodeWalker widgetNode (Some []) false) acc = Normal acc.
Proof.
  intros Hfuel. destruct fuel as [|[|fuel]]; [lia..|].
  cbn [Widget.walk]. rewrite next_exit_root. cbn [Widget.walk].
  now cbn.
Qed.

(** From the cursor on a child, with only text leaves up to the last
    child: their literals are appended in order. *)
Lemma walk_text_children :
  forall (ts : list MdNode) (t : MdNode) (pre : list MdNode) (acc : jstring)
         (fuel : nat),
    children widgetNode = pre ++ t :: ts ->
    Forall (fun t => type t = str "text" /\ isContainer t = false) (t :: ts) ->
    length (t :: ts) + 2 <= fuel ->
    walk fuel (mkNodeWalker widgetNode (Some [length pre]) true) acc
    = Normal (acc ++ concat (map literal (t :: ts))).
Proof.
  induction ts as [|t' ts IH]; intros t pre acc fuel Hcs Hts Hfuel;
    (destruct fuel as [|fuel]; [simpl in Hfuel; lia|]);
    apply Forall_cons in Hts as [[Ht Hleaf] Hts];
    assert (children widgetNode !! length pre = Some t) as Hi
      by (rewrite Hcs; apply list_lookup_middle; done).
  - assert (children widgetNode !! S (length pre) = None) as Hlast.
    { apply lookup_ge_None. rewrite Hcs, length_app. simpl. lia. }
    cbn [Widget.walk]. rewrite (next_enter_last_leaf _ _ Hi Hleaf Hlast).
    rewrite (bool_decide_eq_false_2 (type t <> str "text")) by tauto.
    rewrite andb_false_r.
    rewrite (bool_decide_eq_true_2 (type t = str "text")) by done.
    rewrite walk_exit_root by (simpl in Hfuel; lia).
    simpl. now rewrite app_nil_r.
  - assert (is_Some (children widgetNode !! S (length pre))) as Hnext.
    { apply lookup_lt_is_Some. rewrite Hcs, !length_app. simpl. lia. }
    cbn [Widget.walk]. rewrite (next_enter_leaf _ _ _ _ Hi Hleaf Hnext).
    rewrite (bool_decide_eq_false_2 (type t <> str "text")) by tauto.
    rewrite andb_false_r.
    rewrite (bool_decide_eq_true_2 (type t = str "text")) by done.
    replace (S (length pre)) with (length (pre ++ [t]))
      by (rewrite length_app; simpl; lia).
    rewrite (IH t' (pre ++ [t]) (acc ++ literal t) fuel).
    + simpl. now rewrite <- !app_assoc.
    + now rewrite Hcs, <- app_assoc.
    + done.
    + simpl in *. lia.
Qed.

End ExtractorMore.

(** X13.  When every child of the widget node is a text leaf,
    [getWidgetContent] returns their literals put together in order; for
    a widget node without children it returns the empty text. *)
Theorem getWidgetContent_text_children
    (isContainer : MdNode -> bool) (getInlineMarkdownText : MdNode -> jstring)
    (type_ literal_ : jstring) (ts : list MdNode) (fuel : nat) :
  let widgetNode := mkMdNode type_ literal_ ts in
  isContainer widgetNode = true ->
  type_ <> str "text" ->
  Forall (fun t => type t = str "text" /\ isContainer t = false) ts ->
  length ts + 3 <= fuel ->
  getWidgetContent isContainer getInlineMarkdownText fuel widgetNode
  = Normal (concat (map literal ts)).
Proof.
  intros widgetNode Hc Ht Hts Hfuel.
  destruct fuel as [|fuel]; [lia|].
  unfold getWidgetContent. cbn [walk]. destruct ts as [|t ts].
  - rewrite next_enter_childless_root by done.
    rewrite (bool_decide_eq_false_2 (@nil nat <> [])) by tauto.
    cbn [andb].
    rewrite (bool_decide_eq_false_2 (type widgetNode = str "text")) by done.
    apply walk_exit_root. simpl in Hfuel. lia.
  - rewrite next_enter_root by done.
    rewrite (bool_decide_eq_false_2 (@nil nat <> [])) by tauto.
    cbn [andb].
    rewrite (bool_decide_eq_false_2 (type widgetNode = str "text")) by done.
    apply (walk_text_children isContainer getInlineMarkdownText widgetNode
             ts t [] [] fuel); [done|done|simpl in *; lia].
Qed.

Lemma getWidgetContent_text_children_witness :
  let isContainer := fun n => negb (bool_decide (type n = str "text")) in
  let getInlineMarkdownText := fun n : MdNode => str "?" in
  let foo := mkMdNode (str "text") (str "foo") [] in
  let bar := mkMdNode (str "text") (str "bar") [] in
  getWidgetContent isContainer getInlineMarkdownText 5
    (mkMdNode (str "customInline") [] [foo; bar])
  = Normal (str "foobar").
Proof.
  intros isContainer getInlineMarkdownText foo bar.
  apply (getWidgetContent_text_children isContainer getInlineMarkdownText
           (str "customInline") [] [foo; bar] 5).
  - reflexivity.
  - discriminate.
  - repeat constructor.
  - simpl. lia.
Defined.

(** X14.  The escaping cannot be undone from the encoded text alone: for
    a content without three dollar signs in a row, encoding the escaped
    content gives the same text as encoding the content, so a content
    with [$$] and the content with a zero-width space between the two
    dollar signs are encoded alike. *)
Theorem createWidgetContent_escaped_again (info content : jstring) :
  includes content (str "$$$") = false ->
  createWidgetContent info
    (String_replaceAll content (str "$$") (str "$" ++ [ZWSP] ++ str "$"))
  = createWidgetContent info content.
Proof.
  intros Hc.
  destruct (escapeFrom_no_delimiter (length content) content []
              (le_n _) Hc) as [Hsafe _].
  unfold createWidgetContent, String_replaceAll. cbv zeta.
  now rewrite (replaceAllFrom_absent _ _ _ [] Hsafe).
Qed.

Lemma createWidgetContent_escaped_again_witness :
  includes (str "a$$b") (str "$$$") = false
  /\ createWidgetContent (str "widget0") (str "a$" ++ [ZWSP] ++ str "$b")
     = createWidgetContent (str "widget0") (str "a$$b").
Proof.
  split; [reflexivity|].
  apply (createWidgetContent_escaped_again (str "widget0") (str "a$$b")).
  reflexivity.
Defined.
